(** * o-error: tagging, merged info and full stack of JavaScript errors

    A shallow embedding of the [OError] helpers and the properties of
    their tagging, info-merging and stack-aggregation operations.

    Sources embedded:
    - [src/dist/index.js]      (module [Dist]):    [tag] with the
      [maxTags] cap, [getFullInfo] merging the cause, [getFullStack];
    - [src/unnamed/part_000]   (module [Part000]): [tag], [tagIfExists],
      [_tag], [getFullInfo] without the cause, [getFullStack];
    - the constructor, [withInfo], [withCause] and [indent] have the same
      text in every source file and are embedded once, before the modules;
    - [src/unnamed/part_001] is an earlier text of the same class (no
      [tagIfExists], no cap, no placeholder) and is not embedded.

    JavaScript objects have identity and are mutated in place, so the
    embedding is over an explicit store: error objects and plain (info)
    objects live at locations, and operations pass the store along. *)

From Stdlib Require Import Ascii String ZArith Lia.
From stdpp Require Import gmap strings list fin_maps pretty.

Open Scope string_scope.
Open Scope list_scope.
Open Scope nat_scope.

(** ** Values *)

(** Object identities. *)
Abbreviation loc := nat.

(** The JavaScript values that reach an [info] or [message] position.
    Numbers are kept to the integer-valued ones and [NaN]; the code only
    looks at truthiness and [typeof].  Arrays are objects whose own
    enumerable properties are their indices, so [JObject] covers them. *)
Inductive JsVal :=
| JUndefined
| JNull
| JBool (b : bool)
| JNum (z : Z)
| JNaN
| JStr (s : string)
| JObject (l : loc).

#[global] Instance JsVal_eq_dec : EqDecision JsVal.
Proof. solve_decision. Defined.

(** The own enumerable properties of a plain object. *)
Abbreviation Props := (gmap string JsVal).

(** [ToBoolean]: what [if (v)], [!v], [v || w] and [v && w] test. *)
Definition truthy (v : JsVal) : bool :=
  match v with
  | JUndefined | JNull | JNaN => false
  | JBool b => b
  | JNum z => negb (z =? 0)%Z
  | JStr s => negb (String.eqb s "")
  | JObject _ => true
  end.

(** [a || b] *)
Definition js_or (a b : JsVal) : JsVal := if truthy a then a else b.

(** [typeof v === 'object'] (true of [null] as well). *)
Definition typeof_object (v : JsVal) : bool :=
  match v with
  | JNull | JObject _ => true
  | _ => false
  end.

(** A value in an [error] or [cause] position: [Error | null | undefined]. *)
Inductive ErrRef :=
| ENull
| EUndefined
| EObj (l : loc).

#[global] Instance ErrRef_eq_dec : EqDecision ErrRef.
Proof. solve_decision. Defined.

Definition ref_truthy (e : ErrRef) : bool :=
  match e with
  | EObj _ => true
  | ENull | EUndefined => false
  end.

(** ** Tags *)

(** An element of [_oErrorTags].  [DROPPED_TAGS_ERROR] is the one shared
    object the source compares against with [===]; every other tag is an
    object created by the tagging call, hence never identical to it. *)
Inductive Tag :=
| DROPPED_TAGS_ERROR
| TaggedError (message : JsVal) (info : JsVal) (stack : string).

#[global] Instance Tag_eq_dec : EqDecision Tag.
Proof. solve_decision. Defined.

Definition tag_message (t : Tag) : JsVal :=
  match t with
  | DROPPED_TAGS_ERROR => JStr "... dropped tags"
  | TaggedError m _ _ => m
  end.

(** [tag.info]; the sentinel has no [info] property. *)
Definition tag_info (t : Tag) : JsVal :=
  match t with
  | DROPPED_TAGS_ERROR => JUndefined
  | TaggedError _ i _ => i
  end.

(** [tag.stack] *)
Definition tag_stack (t : Tag) : string :=
  match t with
  | DROPPED_TAGS_ERROR => "TaggedError: ... dropped tags"
  | TaggedError _ _ s => s
  end.

(** What the host contributes to one tagging call.
    - [CaptureStackTrace trace]: [Error.captureStackTrace] exists, and
      [trace] is the stack it stores on the tag (the tagging function's
      own frame elided);
    - [NoCaptureStackTrace trace]: it does not exist, and [trace] is the
      stack the host gives to the newly constructed [TaggedError]. *)
Inductive HostTrace :=
| CaptureStackTrace (trace : string)
| NoCaptureStackTrace (trace : string).

(** ** Error objects and the store *)

(** The properties of an error object that the library reads or writes.
    [None] is an absent property; reading it yields [undefined]. *)
Record ErrObj := mkErr {
  err_message : string;
  err_name : string;
  err_stack : option string;
  err_info : option JsVal;
  err_cause : option ErrRef;
  err_oErrorTags : option (list Tag)
}.

(** An object that carries none of the properties. *)
Definition bareObject : ErrObj :=
  {| err_message := ""; err_name := ""; err_stack := None;
     err_info := None; err_cause := None; err_oErrorTags := None |}.

Record Store := mkStore {
  errs : gmap loc ErrObj;   (* error-shaped objects *)
  objs : gmap loc Props     (* plain objects *)
}.

Definition emptyStore : Store := {| errs := ∅; objs := ∅ |}.

Definition readErr (st : Store) (l : loc) : ErrObj :=
  default bareObject (errs st !! l).

Definition writeErr (st : Store) (l : loc) (o : ErrObj) : Store :=
  {| errs := <[l := o]> (errs st); objs := objs st |}.

(** [oError.info], [oError.cause] *)
Definition read_info (st : Store) (l : loc) : JsVal :=
  default JUndefined (err_info (readErr st l)).

Definition read_cause (st : Store) (l : loc) : ErrRef :=
  default EUndefined (err_cause (readErr st l)).

Definition read_tags (st : Store) (l : loc) : option (list Tag) :=
  err_oErrorTags (readErr st l).

Definition readObj (st : Store) (l : loc) : Props :=
  default ∅ (objs st !! l).

(** [{ ...props }]: a new plain object. *)
Definition alloc_object (st : Store) (props : Props) : loc * Store :=
  let l := fresh (dom (objs st)) in
  (l, {| errs := errs st; objs := <[l := props]> (objs st) |}).

(** The characters of a string as index properties:
    ["ab"] has own enumerable properties [0: "a"], [1: "b"] (one per
    byte here, which is one per code unit for ASCII text). *)
Fixpoint string_props (i : nat) (s : string) : Props :=
  match s with
  | EmptyString => ∅
  | String c rest => <[pretty i := JStr (String c EmptyString)]> (string_props (S i) rest)
  end.

(** The own enumerable string-keyed properties that [Object.assign] copies
    from a source value. *)
Definition own_enumerable (st : Store) (v : JsVal) : Props :=
  match v with
  | JObject l => readObj st l
  | JStr s => string_props 0 s
  | _ => ∅
  end.

(** One [Object.assign] step on property maps: the source's keys overwrite
    the target's. *)
Definition assign_props (target source : Props) : Props := source ∪ target.

(** [Object.assign(target, source)] for a target that is a plain object. *)
Definition object_assign (st : Store) (target : loc) (source : JsVal) : Store :=
  {| errs := errs st;
     objs := <[target := assign_props (readObj st target) (own_enumerable st source)]> (objs st) |}.

(** ** Constructor and fluent setters (same text in all three sources) *)

(** [new C(message, info, cause)] for [C] the class [OError] or a subclass
    named [cls]; [hostStack] is the stack the runtime captures.
<<
    super(message)
    this.name = this.constructor.name
    if (info) this.info = info
    if (cause) this.cause = cause
>> *)
Definition OError (cls : string) (st : Store) (message : string) (info : JsVal)
    (cause : ErrRef) (hostStack : option string) : loc * Store :=
  let this := fresh (dom (errs st)) in
  (this,
   writeErr st this
     {| err_message := message;
        err_name := cls;
        err_stack := hostStack;
        err_info := if truthy info then Some info else None;
        err_cause := if ref_truthy cause then Some cause else None;
        err_oErrorTags := None |}).

(** [withInfo(info) { this.info = info; return this }] *)
Definition withInfo (st : Store) (this : loc) (info : JsVal) : ErrRef * Store :=
  let o := readErr st this in
  (EObj this,
   writeErr st this
     {| err_message := err_message o; err_name := err_name o; err_stack := err_stack o;
        err_info := Some info;
        err_cause := err_cause o; err_oErrorTags := err_oErrorTags o |}).

(** [withCause(cause) { this.cause = cause; return this }] *)
Definition withCause (st : Store) (this : loc) (cause : ErrRef) : ErrRef * Store :=
  let o := readErr st this in
  (EObj this,
   writeErr st this
     {| err_message := err_message o; err_name := err_name o; err_stack := err_stack o;
        err_info := err_info o;
        err_cause := Some cause;
        err_oErrorTags := err_oErrorTags o |}).

(** [oError._oErrorTags = tags] *)
Definition set_tags (st : Store) (l : loc) (tags : list Tag) : Store :=
  let o := readErr st l in
  writeErr st l
    {| err_message := err_message o; err_name := err_name o; err_stack := err_stack o;
       err_info := err_info o; err_cause := err_cause o;
       err_oErrorTags := Some tags |}.

(** The tag object a tagging call creates.
<<
    if (Error.captureStackTrace) {
      tag = { name: 'TaggedError', message, info }
      Error.captureStackTrace(tag, caller)
    } else {
      tag = new TaggedError(message || '', info)
    }
>>
    In the second branch the constructor stores [info] only when truthy. *)
Definition make_tag (h : HostTrace) (message info : JsVal) : Tag :=
  match h with
  | CaptureStackTrace trace => TaggedError message info trace
  | NoCaptureStackTrace trace =>
      TaggedError (js_or message (JStr "")) (if truthy info then info else JUndefined) trace
  end.

(** ** [indent] *)

Definition nl : string := String "010"%char EmptyString.

Definition indent_unit : string := "    ".

(** A line terminator of one code unit that is one byte: LF or CR. *)
Definition is_lf_cr (c : ascii) : bool :=
  (Ascii.eqb c "010" || Ascii.eqb c "013")%char.

(** U+2028 and U+2029, the other two line terminators, in UTF-8:
    [E2 80 A8] and [E2 80 A9]. *)
Definition is_ls_ps (c0 c1 c2 : ascii) : bool :=
  (Ascii.eqb c0 "226" && Ascii.eqb c1 "128" && (Ascii.eqb c2 "168" || Ascii.eqb c2 "169"))%char.

(** The part of [string.replace(/^/gm, '    ')] after position 0: four
    spaces go in after every line terminator.  Strings are read as UTF-8. *)
Fixpoint indent_tail (s : string) : string :=
  match s with
  | EmptyString => EmptyString
  | String c rest =>
      if is_lf_cr c then String c (indent_unit +:+ indent_tail rest)
      else
        match rest with
        | String c1 (String c2 rest2) =>
            if is_ls_ps c c1 c2
            then String c (String c1 (String c2 (indent_unit +:+ indent_tail rest2)))
            else String c (indent_tail rest)
        | _ => String c (indent_tail rest)
        end
  end.

(** [function indent(string) { return string.replace(/^/gm, '    ') }]:
    [^] with the [m] flag matches at the start of the input and after each
    line terminator. *)
Definition indent (s : string) : string := indent_unit +:+ indent_tail s.

(** [c] followed by [s] begins with U+2028 or U+2029. *)
Definition starts_ls_ps (c : ascii) (s : string) : bool :=
  match s with
  | String c1 (String c2 _) => is_ls_ps c c1 c2
  | _ => false
  end.

(** A string that contains a line terminator. *)
Fixpoint has_terminator (s : string) : bool :=
  match s with
  | EmptyString => false
  | String c rest => is_lf_cr c || starts_ls_ps c rest || has_terminator rest
  end.

(** [s || '(no stack)'] for a [stack] property that is absent or a string. *)
Definition stack_or_placeholder (s : option string) : string :=
  match s with
  | Some s' => if String.eqb s' "" then "(no stack)" else s'
  | None => "(no stack)"
  end.

(** ** Outcomes of calls that can throw *)

Inductive JsError := TypeError.

Inductive Outcome (A : Type) :=
| Returns (a : A) (st : Store)
| Throws (e : JsError).
Arguments Returns {A} a st.
Arguments Throws {A} e.

(** ** Array operations used on [_oErrorTags] *)

(** [a[1] === DROPPED_TAGS_ERROR] *)
Definition second_is_dropped (a : list Tag) : bool :=
  bool_decide (a !! 1 = Some DROPPED_TAGS_ERROR).

(** [a.splice(2, 1)]: removes the element at index 2 when there is one. *)
Definition splice_2_1 (a : list Tag) : list Tag := delete 2 a.

(** [a[1] = v].  In range the element is overwritten; on an array of
    length 1 JavaScript extends the array by one.  (On an empty array
    JavaScript would leave a hole at index 0; [tag] never gets there,
    see [cap_tags_nonempty], and the embedding has no holes.) *)
Definition set_index1 (v : Tag) (a : list Tag) : list Tag :=
  if decide (1 < length a)%nat then <[1 := v]> a else a ++ [v].

(** [a.push(v)] *)
Definition push (a : list Tag) (v : Tag) : list Tag := a ++ [v].

(** [a.map((tag) => tag.stack).join('\n')] *)
Definition join_tag_stacks (a : list Tag) : string :=
  String.concat nl (map tag_stack a).

(** The two statements that end every [getFullInfo], on the result
    object [info] and the error [oError]:
<<
    if (typeof oError.info === 'object') Object.assign(info, oError.info)
    if (oError._oErrorTags)
      for (const tag of oError._oErrorTags) Object.assign(info, tag.info)
>> *)
Definition assign_info_and_tags (st : Store) (info : loc) (oError : loc) : Store :=
  let st :=
    if typeof_object (read_info st oError)
    then object_assign st info (read_info st oError)
    else st in
  match read_tags st oError with
  | Some tags => fold_left (fun st t => object_assign st info (tag_info t)) tags st
  | None => st
  end.

(** ** src/dist/index.js *)
Module Dist.

(** [OError.maxTags = 100]: "Defaults to 100. Must be at least 1." *)
Definition default_maxTags : positive := 100.

(** The capacity step of [tag]:
<<
    if (oError._oErrorTags.length >= OError.maxTags) {
      // Preserve the first tag and add an indicator that we dropped some tags.
      if (oError._oErrorTags[1] === DROPPED_TAGS_ERROR) {
        oError._oErrorTags.splice(2, 1)
      } else {
        oError._oErrorTags[1] = DROPPED_TAGS_ERROR
      }
    }
>> *)
Definition cap_tags (maxTags : positive) (a : list Tag) : list Tag :=
  if decide (Pos.to_nat maxTags ≤ length a)%nat then
    if second_is_dropped a then splice_2_1 a
    else set_index1 DROPPED_TAGS_ERROR a
  else a.

(** What one call of [tag] does to the array: the capacity step, then
    [push(tag)]. *)
Definition tag_array (maxTags : positive) (a : list Tag) (t : Tag) : list Tag :=
  push (cap_tags maxTags a) t.

(** [OError.tag = function (error, message, info)], with [maxTags] the
    current value of [OError.maxTags] and [h] the host's trace.  Reading
    [oError._oErrorTags] of [null] or [undefined] throws a [TypeError]. *)
Definition tag (maxTags : positive) (st : Store) (error : ErrRef)
    (message info : JsVal) (h : HostTrace) : Outcome ErrRef :=
  match error with
  | ENull | EUndefined => Throws TypeError
  | EObj oError =>
      (* if (!oError._oErrorTags) oError._oErrorTags = [] *)
      let tags := default [] (read_tags st oError) in
      let t := make_tag h message info in
      Returns error (set_tags st oError (tag_array maxTags tags t))
  end.

(** [OError.getFullInfo = function (error)].  [fuel] bounds the depth of
    the recursion over [cause]; [None] is a run that exceeds it.
<<
    var info = {};
    if (!error) return info;
    if (oError.cause) Object.assign(info, OError.getFullInfo(oError.cause));
    if (typeof oError.info === 'object') Object.assign(info, oError.info);
    if (oError._oErrorTags)
      for (tag of oError._oErrorTags) Object.assign(info, tag.info);
    return info;
>> *)
Fixpoint getFullInfo (fuel : nat) (st : Store) (error : ErrRef) : option (loc * Store) :=
  let '(info, st) := alloc_object st ∅ in
  match error with
  | ENull | EUndefined => Some (info, st)
  | EObj oError =>
      if ref_truthy (read_cause st oError) then
        match fuel with
        | O => None
        | S fuel' =>
            match getFullInfo fuel' st (read_cause st oError) with
            | Some (causeInfo, st') =>
                let st := object_assign st' info (JObject causeInfo) in
                Some (info, assign_info_and_tags st info oError)
            | None => None
            end
        end
      else Some (info, assign_info_and_tags st info oError)
  end.

(** [OError.getFullStack = function (error)].  It writes to no object, so
    it is a function of the store.
<<
    if (!error) return '';
    var stack = oError.stack || '(no stack)';
    if (Array.isArray(oError._oErrorTags) && oError._oErrorTags.length)
      stack += "\n" + oError._oErrorTags.map(tag => tag.stack).join('\n');
    var causeStack = oError.cause && OError.getFullStack(oError.cause);
    if (causeStack) stack += '\ncaused by:\n' + indent(causeStack);
    return stack;
>> *)
Fixpoint getFullStack (fuel : nat) (st : Store) (error : ErrRef) : option string :=
  match error with
  | ENull | EUndefined => Some ""
  | EObj oError =>
      let stack := stack_or_placeholder (err_stack (readErr st oError)) in
      let stack :=
        match read_tags st oError with
        | Some ((_ :: _) as tags) => stack +:+ nl +:+ join_tag_stacks tags
        | _ => stack
        end in
      if ref_truthy (read_cause st oError) then
        match fuel with
        | O => None
        | S fuel' =>
            match getFullStack fuel' st (read_cause st oError) with
            | Some causeStack =>
                if String.eqb causeStack "" then Some stack
                else Some (stack +:+ nl +:+ "caused by:" +:+ nl +:+ indent causeStack)
            | None => None
            end
        end
      else Some stack
  end.

End Dist.

(** ** src/unnamed/part_000 *)
Module Part000.

(** The function whose frames [Error.captureStackTrace] is asked to hide. *)
Inductive Caller := caller_tag | caller_tagIfExists.

(** [static _tag(error, message, info, caller)]: no capacity step in this
    source.  [caller] only tells the host which frames to leave out of the
    trace [h] it hands back. *)
Definition _tag (st : Store) (error : ErrRef) (message info : JsVal)
    (caller : Caller) (h : HostTrace) : Outcome ErrRef :=
  match error with
  | ENull | EUndefined => Throws TypeError
  | EObj oError =>
      let tags := default [] (read_tags st oError) in
      let t := make_tag h message info in
      Returns error (set_tags st oError (push tags t))
  end.

(** [static tag(error, message, info) { return OError._tag(error, message, info, OError.tag) }] *)
Definition tag (st : Store) (error : ErrRef) (message info : JsVal)
    (h : HostTrace) : Outcome ErrRef :=
  _tag st error message info caller_tag h.

(** [static tagIfExists(error, message, info)]:
<<
    if (!error) return error
    return OError._tag(error, message, info, OError.tagIfExists)
>> *)
Definition tagIfExists (st : Store) (error : ErrRef) (message info : JsVal)
    (h : HostTrace) : Outcome ErrRef :=
  if negb (ref_truthy error) then Returns error st
  else _tag st error message info caller_tagIfExists h.

(** [static getFullInfo(error)]: own info and tags only.
<<
    const info = {}
    if (!error) return info
    if (typeof oError.info === 'object') Object.assign(info, oError.info)
    if (oError._oErrorTags)
      for (const tag of oError._oErrorTags) Object.assign(info, tag.info)
    return info
>> *)
Definition getFullInfo (st : Store) (error : ErrRef) : loc * Store :=
  let '(info, st) := alloc_object st ∅ in
  match error with
  | ENull | EUndefined => (info, st)
  | EObj oError => (info, assign_info_and_tags st info oError)
  end.

(** [static getFullStack(error)]: the same statements as in
    [src/dist/index.js]. *)
Definition getFullStack := Dist.getFullStack.

End Part000.

(** ** Vocabulary of the properties *)

(** The cause chain from [e] is finite: following [cause] reaches an
    absent, [null] or [undefined] cause.  A chain with a cycle never does. *)
Inductive cause_chain_ends (st : Store) : ErrRef → Prop :=
| chain_end e : ref_truthy e = false → cause_chain_ends st e
| chain_step l : cause_chain_ends st (read_cause st l) → cause_chain_ends st (EObj l).

(** Merging in order, last write wins: each source in turn overwrites the
    keys it defines. *)
Definition merge_in_order (base : Props) (sources : list Props) : Props :=
  fold_left assign_props sources base.

(** The sources an error contributes itself, in merge order: its own
    [info] when that is an object, then the [info] of each tag. *)
Definition info_sources (st : Store) (l : loc) : list Props :=
  (if typeof_object (read_info st l) then [own_enumerable st (read_info st l)] else [])
  ++ map (fun t => own_enumerable st (tag_info t)) (default [] (read_tags st l)).

(** The full info as a property map, read off the store without building
    the result object: the cause's full info first, then the error's own
    sources. *)
Fixpoint fullInfo (fuel : nat) (st : Store) (error : ErrRef) : option Props :=
  match error with
  | ENull | EUndefined => Some ∅
  | EObj l =>
      if ref_truthy (read_cause st l) then
        match fuel with
        | O => None
        | S fuel' =>
            match fullInfo fuel' st (read_cause st l) with
            | Some fromCause => Some (merge_in_order fromCause (info_sources st l))
            | None => None
            end
        end
      else Some (merge_in_order ∅ (info_sources st l))
  end.

(** No dangling references: every plain object an error or a tag names as
    its [info] is in the store. *)
Definition val_allocated (st : Store) (v : JsVal) : Prop :=
  match v with
  | JObject x => x ∈ dom (objs st)
  | _ => True
  end.

Definition err_allocated (st : Store) (o : ErrObj) : Prop :=
  val_allocated st (default JUndefined (err_info o))
  ∧ Forall (fun t => val_allocated st (tag_info t)) (default [] (err_oErrorTags o)).

Definition refs_allocated (st : Store) : Prop :=
  map_Forall (fun _ o => err_allocated st o) (errs st).

#[global] Instance val_allocated_dec st v : Decision (val_allocated st v).
Proof. destruct v; simpl; apply _. Defined.

#[global] Instance err_allocated_dec st o : Decision (err_allocated st o).
Proof. unfold err_allocated. apply _. Defined.

#[global] Instance refs_allocated_dec st : Decision (refs_allocated st).
Proof. unfold refs_allocated. apply _. Defined.

(** [st'] has the same error objects as [st] and every plain object of
    [st], unchanged. *)
Definition grows (st st' : Store) : Prop :=
  errs st' = errs st ∧ objs st ⊆ objs st'.

(** [getFullInfo] returns an object whose properties are [m]. *)
Definition returns_info (st : Store) (error : ErrRef) (m : Props) : Prop :=
  ∃ fuel r st', Dist.getFullInfo fuel st error = Some (r, st') ∧ objs st' !! r = Some m.

(** Each string on a line of its own, after what came before. *)
Definition on_new_lines (ls : list string) : string :=
  fold_right (fun line rest => nl +:+ line +:+ rest) "" ls.

(** [getFullStack] returns the string [s]. *)
Definition returns_stack (st : Store) (error : ErrRef) (s : string) : Prop :=
  ∃ fuel, Dist.getFullStack fuel st error = Some s.

(** One call [OError.tag(error, message, info)] of a client. *)
Record TagCall := mkCall {
  call_message : JsVal;
  call_info : JsVal;
  call_host : HostTrace
}.

(** The tag object that call creates. *)
Definition call_tag (c : TagCall) : Tag :=
  make_tag (call_host c) (call_message c) (call_info c).

(** A client tagging the same error once per call, in order. *)
Fixpoint tag_calls (maxTags : positive) (st : Store) (error : ErrRef)
    (calls : list TagCall) : Outcome ErrRef :=
  match calls with
  | [] => Returns error st
  | c :: rest =>
      match Dist.tag maxTags st error (call_message c) (call_info c) (call_host c) with
      | Returns error' st' => tag_calls maxTags st' error' rest
      | Throws e => Throws e
      end
  end.

(** How many entries of an array are the dropped-tags sentinel. *)
Definition count_dropped (a : list Tag) : nat :=
  length (filter (fun t => t = DROPPED_TAGS_ERROR) a).

(** The array that tagging a never-tagged error with [ts], in order, is
    shown to leave: all of [ts] while they fit; after that the first tag,
    the sentinel, and the most recent tags. *)
Definition capped (maxTags : positive) (ts : list Tag) : list Tag :=
  if decide (length ts ≤ Pos.to_nat maxTags)%nat then ts
  else take 1 ts ++ [DROPPED_TAGS_ERROR]
       ++ drop (length ts - Nat.max (Pos.to_nat maxTags - 1) 1) ts.

(** *** Concrete scenarios *)

(** [n] calls [OError.tag(err, 'test message i')], [i = 0 .. n-1], on a
    host with [Error.captureStackTrace]. *)
Definition numbered_calls (n : nat) : list TagCall :=
  map (fun i => {| call_message := JStr ("test message " +:+ pretty i);
                   call_info := JUndefined;
                   call_host := CaptureStackTrace ("TaggedError: test message " +:+ pretty i) |})
      (seq 0 n).

(** [new OError('test error')] in the empty store: the error is at
    location 0. *)
Definition fresh_error_store : Store :=
  snd (OError "OError" emptyStore "test error" JUndefined EUndefined (Some "Error: test error")).

(** The tag array after tagging that error 150 times with the default
    [maxTags] of 100. *)
Definition tags_after_150 : option (list Tag) :=
  match tag_calls Dist.default_maxTags fresh_error_store (EObj 0) (numbered_calls 150) with
  | Returns _ st => read_tags st 0
  | Throws _ => None
  end.

(** [E = new OError('E', {a:1}); tag(E,'m1',{a:2}); tag(E,'m2',{a:3})]. *)
Definition tagging_order_store : loc * Store :=
  let '(i1, st) := alloc_object emptyStore {["a" := JNum 1]} in
  let '(i2, st) := alloc_object st {["a" := JNum 2]} in
  let '(i3, st) := alloc_object st {["a" := JNum 3]} in
  let '(e, st) := OError "OError" st "E" (JObject i1) EUndefined (Some "Error: E") in
  match Dist.tag 100 st (EObj e) (JStr "m1") (JObject i2) (CaptureStackTrace "TaggedError: m1") with
  | Returns _ st =>
      match Dist.tag 100 st (EObj e) (JStr "m2") (JObject i3) (CaptureStackTrace "TaggedError: m2") with
      | Returns _ st => (e, st)
      | Throws _ => (e, st)
      end
  | Throws _ => (e, st)
  end.

(** [cause = new OError('c', {x:1}); E = new OError('e', {x:2}, cause)]. *)
Definition cause_precedence_store : loc * Store :=
  let '(i1, st) := alloc_object emptyStore {["x" := JNum 1]} in
  let '(i2, st) := alloc_object st {["x" := JNum 2]} in
  let '(c, st) := OError "OError" st "c" (JObject i1) EUndefined (Some "Error: c") in
  OError "OError" st "e" (JObject i2) (EObj c) (Some "Error: e").

(** [cause = new OError('c', {x:1}); E = new OError('e', null, cause)]. *)
Definition falsy_info_with_cause_store : loc * Store :=
  let '(i1, st) := alloc_object emptyStore {["x" := JNum 1]} in
  let '(c, st) := OError "OError" st "c" (JObject i1) EUndefined (Some "Error: c") in
  OError "OError" st "e" JNull (EObj c) (Some "Error: e").

(** [cause = new OError('c'); E = new OError('e', undefined, cause);
    tag(E, 'm1'); tag(E, 'm2')], the cause with a stack of two lines. *)
Definition two_tags_one_cause_store : loc * Store :=
  let '(c, st) := OError "OError" emptyStore "c" JUndefined EUndefined
                    (Some ("Error: c" +:+ nl +:+ "    at g")) in
  let '(e, st) := OError "OError" st "e" JUndefined (EObj c) (Some "Error: e") in
  match Dist.tag 100 st (EObj e) (JStr "m1") JUndefined (CaptureStackTrace "TaggedError: m1") with
  | Returns _ st =>
      match Dist.tag 100 st (EObj e) (JStr "m2") JUndefined (CaptureStackTrace "TaggedError: m2") with
      | Returns _ st => (e, st)
      | Throws _ => (e, st)
      end
  | Throws _ => (e, st)
  end.

(** [E = new OError('loop'); E.withCause(E)]: a cause chain with a cycle. *)
Definition self_caused_store : loc * Store :=
  let '(e, st) := OError "OError" emptyStore "loop" JUndefined EUndefined (Some "Error: loop") in
  (e, snd (withCause st e (EObj e))).

(** The properties of the object a run of [getFullInfo] returned. *)
Definition result_props (res : option (loc * Store)) : option Props :=
  match res with
  | Some (r, st) => objs st !! r
  | None => None
  end.

(** ** src/unnamed/part_001 *)
Module Part001.

(** The stack the host leaves on a tag: the one [Error.captureStackTrace]
    stores over it, or the one the constructor captured. *)
Definition host_trace (h : HostTrace) : string :=
  match h with
  | CaptureStackTrace trace => trace
  | NoCaptureStackTrace trace => trace
  end.

(** [static tag(error, message, info)], for a [message] that is a string
    or absent:
<<
    if (!oError._oErrorTags) oError._oErrorTags = []
    const tag = new TaggedError(message, info)
    if (Error.captureStackTrace) Error.captureStackTrace(tag, OError.tag)
    oError._oErrorTags.push(tag)
    return error
>>
    The tag is always built by the constructor, which stores [info] only
    when truthy; [new Error(undefined)] has the message ['']. *)
Definition tag (st : Store) (error : ErrRef) (message : option string)
    (info : JsVal) (h : HostTrace) : Outcome ErrRef :=
  match error with
  | ENull | EUndefined => Throws TypeError
  | EObj oError =>
      let tags := default [] (read_tags st oError) in
      let t := TaggedError (JStr (default "" message))
                 (if truthy info then info else JUndefined) (host_trace h) in
      Returns error (set_tags st oError (push tags t))
  end.

(** [stack += x] for a [stack] that is [undefined] ([None]) or a string:
    [undefined] is converted to the text ["undefined"]. *)
Definition append_to (stack : option string) (x : string) : option string :=
  Some (default "undefined" stack +:+ x).

(** A value that is [undefined] or a string, tested by [if (v)]. *)
Definition text_truthy (v : option string) : bool :=
  match v with
  | Some s => negb (String.eqb s "")
  | None => false
  end.

(** [static getFullStack(error)]; the result is a string or [undefined]
    (the inner [None]); the outer [None] is a run out of fuel.
<<
    if (!error) return ''
    let stack = oError.stack
    if (oError._oErrorTags)
      for (const tag of oError._oErrorTags) stack += `\n${tag.stack}`
    const causeStack = oError.cause && OError.getFullStack(oError.cause)
    if (causeStack) stack += '\ncaused by:\n' + indent(causeStack)
    return stack
>> *)
Fixpoint getFullStack (fuel : nat) (st : Store) (error : ErrRef)
    : option (option string) :=
  match error with
  | ENull | EUndefined => Some (Some "")
  | EObj oError =>
      let stack := err_stack (readErr st oError) in
      let stack :=
        match read_tags st oError with
        | Some tags => fold_left (fun stack t => append_to stack (nl +:+ tag_stack t)) tags stack
        | None => stack
        end in
      if ref_truthy (read_cause st oError) then
        match fuel with
        | O => None
        | S fuel' =>
            match getFullStack fuel' st (read_cause st oError) with
            | Some causeStack =>
                if text_truthy causeStack
                then Some (append_to stack
                             (nl +:+ "caused by:" +:+ nl +:+ indent (default "" causeStack)))
                else Some stack
            | None => None
            end
        end
      else Some stack
  end.

End Part001.

(** ** Vocabulary of further properties *)

(** [l] is on the cause chain that starts at [e]. *)
Inductive on_chain (st : Store) : ErrRef → loc → Prop :=
| on_chain_here l : on_chain st (EObj l) l
| on_chain_cause l l' : on_chain st (read_cause st l) l' → on_chain st (EObj l) l'.

(** The sentinel occurs at most once, and then in the second slot. *)
Definition sentinel_in_place (a : list Tag) : Prop :=
  count_dropped a = 0 ∨ (count_dropped a = 1 ∧ a !! 1 = Some DROPPED_TAGS_ERROR).

(** A client tagging the same error once per call with
    [src/unnamed/part_000]'s [tag]. *)
Fixpoint tag_calls_000 (st : Store) (error : ErrRef) (calls : list TagCall)
    : Outcome ErrRef :=
  match calls with
  | [] => Returns error st
  | c :: rest =>
      match Part000.tag st error (call_message c) (call_info c) (call_host c) with
      | Returns error' st' => tag_calls_000 st' error' rest
      | Throws e => Throws e
      end
  end.

(** A client tagging the same error once per call, [OError.maxTags]
    having been set to the value that comes with each call. *)
Fixpoint tag_calls_varying (st : Store) (error : ErrRef)
    (calls : list (positive * TagCall)) : Outcome ErrRef :=
  match calls with
  | [] => Returns error st
  | (maxTags, c) :: rest =>
      match Dist.tag maxTags st error (call_message c) (call_info c) (call_host c) with
      | Returns error' st' => tag_calls_varying st' error' rest
      | Throws e => Throws e
      end
  end.

(** The part of a full stack that comes before the cause: the error's own
    stack and the stacks of its tags. *)
Definition own_stack_lines (st : Store) (l : loc) : string :=
  stack_or_placeholder (err_stack (readErr st l))
  +:+ on_new_lines (map tag_stack (default [] (read_tags st l))).

(** Every error on the cause chain from [e] has a non-empty [stack]. *)
Inductive stacks_present (st : Store) : ErrRef → Prop :=
| stacks_present_end e : ref_truthy e = false → stacks_present st e
| stacks_present_step l s :
    err_stack (readErr st l) = Some s → s ≠ "" →
    stacks_present st (read_cause st l) → stacks_present st (EObj l).

(** [E = new OError('e')] with a stack; [C = new OError('c')]. *)
Definition two_errors_store : Store :=
  let '(e, st) := OError "OError" emptyStore "e" JUndefined EUndefined (Some "Error: e") in
  snd (OError "OError" st "c" JUndefined EUndefined (Some "Error: c")).

(** An object with the properties [{k: 1}], and [new OError('e')]. *)
Definition info_object_store : Store :=
  let '(i, st) := alloc_object emptyStore {["k" := JNum 1]} in
  snd (OError "OError" st "e" JUndefined EUndefined (Some "Error: e")).

(** * Properties *)

(** ** The store *)

Lemma grows_refl st : grows st st.
Proof. split; done. Qed.

Lemma grows_trans st1 st2 st3 : grows st1 st2 → grows st2 st3 → grows st1 st3.
Proof.
  intros [E1 S1] [E2 S2]. split; [congruence|].
  by transitivity (objs st2).
Qed.

(** What a store keeps when it grows. *)
Section grows_facts.
Context {st st' : Store} (G : grows st st').

Lemma grows_readErr l : readErr st' l = readErr st l.
Proof. destruct G as [E _]. unfold readErr. by rewrite E. Qed.

Lemma grows_read_info l : read_info st' l = read_info st l.
Proof. unfold read_info. by rewrite grows_readErr. Qed.

Lemma grows_read_cause l : read_cause st' l = read_cause st l.
Proof. unfold read_cause. by rewrite grows_readErr. Qed.

Lemma grows_read_tags l : read_tags st' l = read_tags st l.
Proof. unfold read_tags. by rewrite grows_readErr. Qed.

Lemma grows_lookup x : x ∈ dom (objs st) → objs st' !! x = objs st !! x.
Proof.
  destruct G as [_ S]. intros [p Hp]%elem_of_dom. rewrite Hp.
  by apply (lookup_weaken _ _ _ _ Hp S).
Qed.

Lemma grows_own_enumerable v :
  val_allocated st v → own_enumerable st' v = own_enumerable st v.
Proof.
  intros A. destruct v; try reflexivity. simpl in *.
  unfold readObj. by rewrite (grows_lookup _ A).
Qed.

Lemma val_allocated_grows v : val_allocated st v → val_allocated st' v.
Proof.
  destruct G as [_ S]. intros A. destruct v; try done. simpl in *.
  by apply (subseteq_dom _ _ S).
Qed.

Lemma err_allocated_grows o : err_allocated st o → err_allocated st' o.
Proof.
  intros [A1 A2]. split; [by apply val_allocated_grows|].
  eapply Forall_impl; [exact A2|]. intros t. apply val_allocated_grows.
Qed.

Lemma refs_allocated_grows : refs_allocated st → refs_allocated st'.
Proof.
  intros W l o E. apply err_allocated_grows, (W l o).
  destruct G as [Ee _]. by rewrite <- Ee.
Qed.
End grows_facts.

Lemma alloc_object_fresh st props : (alloc_object st props).1 ∉ dom (objs st).
Proof. apply is_fresh. Qed.

Lemma alloc_object_grows st props : grows st (alloc_object st props).2.
Proof.
  split; [done|]. simpl. apply insert_subseteq.
  apply not_elem_of_dom, is_fresh.
Qed.

Lemma alloc_object_lookup st props :
  objs (alloc_object st props).2 !! (alloc_object st props).1 = Some props.
Proof. simpl. apply lookup_insert_eq. Qed.

Lemma object_assign_grows st st1 r v :
  r ∉ dom (objs st) → grows st st1 → grows st (object_assign st1 r v).
Proof.
  intros F [E S]. split; [done|]. simpl.
  apply insert_subseteq_r; [by apply not_elem_of_dom | done].
Qed.

Lemma object_assign_lookup st r v :
  objs (object_assign st r v) !! r
  = Some (assign_props (readObj st r) (own_enumerable st v)).
Proof. simpl. apply lookup_insert_eq. Qed.

Lemma object_assign_other st r v x :
  x ≠ r → objs (object_assign st r v) !! x = objs st !! x.
Proof. intros N. simpl. by apply lookup_insert_ne. Qed.

Lemma readObj_lookup st r m : objs st !! r = Some m → readObj st r = m.
Proof. unfold readObj. by intros ->. Qed.

Lemma refs_allocated_readErr st l : refs_allocated st → err_allocated st (readErr st l).
Proof.
  intros W. unfold readErr. destruct (errs st !! l) as [o|] eqn:E; simpl.
  - exact (W l o E).
  - split; simpl; [done | constructor].
Qed.

Lemma refs_allocated_info st l : refs_allocated st → val_allocated st (read_info st l).
Proof. intros W. apply (refs_allocated_readErr st l W). Qed.

Lemma refs_allocated_tags st l :
  refs_allocated st →
  Forall (fun t => val_allocated st (tag_info t)) (default [] (read_tags st l)).
Proof. intros W. apply (refs_allocated_readErr st l W). Qed.

(** The same two facts, on the store as it stands once [alloc_object] is
    computed. *)
Lemma alloc_grows st props :
  grows st {| errs := errs st; objs := <[fresh (dom (objs st)) := props]> (objs st) |}.
Proof. apply alloc_object_grows. Qed.

Lemma alloc_lookup st props :
  objs {| errs := errs st; objs := <[fresh (dom (objs st)) := props]> (objs st) |}
    !! fresh (dom (objs st)) = Some props.
Proof. apply alloc_object_lookup. Qed.

Lemma alloc_fresh st : fresh (dom (objs st)) ∉ dom (objs st).
Proof. apply is_fresh. Qed.

Create HintDb store.
#[local] Hint Resolve grows_refl alloc_grows alloc_lookup alloc_fresh
  object_assign_grows : store.

(** ** [getFullInfo] builds the merged map in a new object *)

Lemma assign_tags_grows tags st st1 r :
  r ∉ dom (objs st) → grows st st1 →
  grows st (fold_left (fun s t => object_assign s r (tag_info t)) tags st1).
Proof.
  intros F. revert st1. induction tags as [|t tags IH]; intros st1 G; simpl; [done|].
  apply IH. by apply object_assign_grows.
Qed.

Lemma assign_info_and_tags_grows st st1 r l :
  r ∉ dom (objs st) → grows st st1 → grows st (assign_info_and_tags st1 r l).
Proof.
  intros F G. unfold assign_info_and_tags.
  set (st2 := if typeof_object (read_info st1 l) then _ else _).
  assert (G2 : grows st st2).
  { subst st2. destruct (typeof_object _); [by apply object_assign_grows | done]. }
  destruct (read_tags st2 l); [by apply assign_tags_grows | done].
Qed.

Lemma assign_tags_lookup tags st st1 r m :
  r ∉ dom (objs st) → grows st st1 → objs st1 !! r = Some m →
  Forall (fun t => val_allocated st (tag_info t)) tags →
  objs (fold_left (fun s t => object_assign s r (tag_info t)) tags st1) !! r
  = Some (fold_left assign_props (map (fun t => own_enumerable st (tag_info t)) tags) m).
Proof.
  intros F. revert st1 m.
  induction tags as [|t tags IH]; intros st1 m G L A; simpl; [done|].
  inversion A as [|? ? At Atags]; subst.
  apply IH; [by apply object_assign_grows | | done].
  rewrite object_assign_lookup, (readObj_lookup _ _ _ L).
  by rewrite (grows_own_enumerable G _ At).
Qed.

Lemma assign_info_and_tags_lookup st st1 r l m :
  refs_allocated st → r ∉ dom (objs st) → grows st st1 → objs st1 !! r = Some m →
  objs (assign_info_and_tags st1 r l) !! r = Some (merge_in_order m (info_sources st l)).
Proof.
  intros W F G L. unfold assign_info_and_tags, merge_in_order, info_sources.
  rewrite (grows_read_info G l).
  pose proof (refs_allocated_info st l W) as Ai.
  pose proof (refs_allocated_tags st l W) as At.
  set (st2 := if typeof_object (read_info st l) then _ else _).
  assert (G2 : grows st st2).
  { subst st2. destruct (typeof_object _); [by apply object_assign_grows | done]. }
  rewrite (grows_read_tags G2 l).
  rewrite fold_left_app.
  set (m2 := fold_left assign_props _ m).
  assert (L2 : objs st2 !! r = Some m2).
  { subst st2 m2. destruct (typeof_object (read_info st l)); simpl; [|done].
    rewrite lookup_insert_eq, (readObj_lookup _ _ _ L).
    by rewrite (grows_own_enumerable G _ Ai). }
  destruct (read_tags st l) as [tags|]; simpl in *; [|done].
  by apply assign_tags_lookup.
Qed.

Lemma fullInfo_grows st st' fuel e :
  refs_allocated st → grows st st' → fullInfo fuel st' e = fullInfo fuel st e.
Proof.
  intros W G. revert e. induction fuel as [|fuel IH]; intros [| |l]; simpl; try done.
  - rewrite (grows_read_cause G l).
    destruct (ref_truthy _); [done|].
    f_equal. f_equal. unfold info_sources.
    rewrite (grows_read_info G l), (grows_read_tags G l).
    rewrite (grows_own_enumerable G _ (refs_allocated_info st l W)).
    f_equal. apply map_ext_Forall.
    eapply Forall_impl; [exact (refs_allocated_tags st l W)|].
    intros t At. simpl. by apply grows_own_enumerable.
  - rewrite (grows_read_cause G l), IH.
    assert (E : info_sources st' l = info_sources st l).
    { unfold info_sources.
      rewrite (grows_read_info G l), (grows_read_tags G l).
      rewrite (grows_own_enumerable G _ (refs_allocated_info st l W)).
      f_equal. apply map_ext_Forall.
      eapply Forall_impl; [exact (refs_allocated_tags st l W)|].
      intros t At. simpl. by apply grows_own_enumerable. }
    by rewrite E.
Qed.

(** What the last two statements of [getFullInfo] leave, for a result
    object [r] that holds [m] so far. *)
Lemma assign_info_and_tags_spec st st1 r l m :
  refs_allocated st → r ∉ dom (objs st) → grows st st1 → objs st1 !! r = Some m →
  grows st (assign_info_and_tags st1 r l)
  ∧ objs (assign_info_and_tags st1 r l) !! r = Some (merge_in_order m (info_sources st l)).
Proof.
  intros W F G L. split.
  - by apply assign_info_and_tags_grows.
  - by apply assign_info_and_tags_lookup.
Qed.

(** Reduces "the run returns a new object with ..." to facts about the
    store the run leaves. *)
Ltac returns_new_object :=
  eexists _, _; split; [reflexivity|]; split; [apply is_fresh|].

(** The run of [getFullInfo] against the map [fullInfo] reads off. *)
Lemma getFullInfo_fullInfo fuel : ∀ st e,
  refs_allocated st →
  match fullInfo fuel st e with
  | Some m =>
      ∃ r st', Dist.getFullInfo fuel st e = Some (r, st')
               ∧ (r ∉ dom (objs st)) ∧ grows st st' ∧ objs st' !! r = Some m
  | None => Dist.getFullInfo fuel st e = None
  end.
Proof.
  induction fuel as [|fuel IH]; intros st e W;
    (destruct e as [| |l]; simpl;
     [returns_new_object; split; auto with store ..|]);
    change (read_cause _ l) with (read_cause st l);
    (destruct (ref_truthy (read_cause st l));
     [|returns_new_object; apply assign_info_and_tags_spec; auto with store]).
  - (* a cause, and no fuel to follow it *) reflexivity.
  - (* a cause: the run on the cause, in the store that has the result object *)
    set (r := fresh (dom (objs st))).
    set (sta := {| errs := errs st; objs := <[r := ∅]> (objs st) |}).
    assert (Ga : grows st sta) by apply (alloc_object_grows st ∅).
    specialize (IH sta (read_cause st l) (refs_allocated_grows Ga W)).
    rewrite (fullInfo_grows st sta fuel _ W Ga) in IH.
    destruct (fullInfo fuel st (read_cause st l)) as [mc|]; [|by rewrite IH].
    destruct IH as (rc & st' & -> & Fc & Gc & Lc).
    returns_new_object.
    assert (Lr : objs st' !! r = Some ∅).
    { eapply lookup_weaken; [apply lookup_insert_eq | apply Gc]. }
    apply assign_info_and_tags_spec; [done | apply is_fresh | |].
    + apply object_assign_grows; [apply is_fresh | by eapply grows_trans].
    + rewrite object_assign_lookup. simpl.
      rewrite (readObj_lookup _ _ _ Lr), (readObj_lookup _ _ _ Lc).
      unfold assign_props. by rewrite (right_id_L ∅ (∪)).
Qed.

(** ** Strings *)

Lemma string_app_cons (x : ascii) (a b : string) :
  String x a +:+ b = String x (a +:+ b).
Proof. reflexivity. Qed.

Lemma string_app_nil_l (a : string) : "" +:+ a = a.
Proof. reflexivity. Qed.

Lemma string_app_assoc (a b c : string) : (a +:+ b) +:+ c = a +:+ (b +:+ c).
Proof.
  induction a as [|x a IH]; [done|].
  by rewrite !string_app_cons, IH.
Qed.

Lemma string_app_nil_r (a : string) : a +:+ "" = a.
Proof.
  induction a as [|x a IH]; [done|].
  by rewrite string_app_cons, IH.
Qed.

Lemma string_app_nonempty (a b : string) : a ≠ "" → a +:+ b ≠ "".
Proof. destruct a; [done | discriminate]. Qed.

Lemma stack_or_placeholder_nonempty s : stack_or_placeholder s ≠ "".
Proof.
  unfold stack_or_placeholder. destruct s as [s|]; [|discriminate].
  destruct (String.eqb_spec s ""); [discriminate | done].
Qed.

(** Joining with newlines after a leading newline puts every string on a
    line of its own. *)
Lemma join_on_new_lines (ls : list string) :
  ls ≠ [] → nl +:+ String.concat nl ls = on_new_lines ls.
Proof.
  induction ls as [|x ls IH]; [done|]. intros _.
  destruct ls as [|y ls].
  - simpl. by rewrite string_app_nil_r.
  - change (String.concat nl (x :: y :: ls)) with (x +:+ nl +:+ String.concat nl (y :: ls)).
    rewrite IH by done. reflexivity.
Qed.

(** ** Termination and the cause chain *)

Lemma cause_chain_ends_errs st st' e :
  errs st' = errs st → cause_chain_ends st e → cause_chain_ends st' e.
Proof.
  intros E H. induction H as [e F | l _ IH].
  - by apply chain_end.
  - apply chain_step. unfold read_cause, readErr in *. by rewrite E.
Qed.

(** A finite chain gives one fuel on which both queries return; the run
    of [getFullInfo] may start in any store with the same error objects. *)
Lemma queries_terminate st e :
  cause_chain_ends st e →
  ∃ fuel, (∀ st1, errs st1 = errs st → is_Some (Dist.getFullInfo fuel st1 e))
          ∧ is_Some (Dist.getFullStack fuel st e).
Proof.
  induction 1 as [e F | l _ (fuel & IHi & [cs IHs])].
  - exists 0. split; [intros st1 _|]; destruct e; simpl in *; by eauto.
  - exists (S fuel). split.
    + intros st1 E. simpl.
      destruct (ref_truthy _) eqn:T; [|by eauto].
      match goal with |- context [Dist.getFullInfo fuel ?s ?c] =>
        assert (C : c = read_cause st l)
          by (unfold read_cause, readErr; simpl; by rewrite E);
        destruct (IHi s) as [[rc st'] R]; [by simpl | rewrite C, R] end.
      by eauto.
    + simpl. rewrite IHs.
      destruct (ref_truthy _); [|by eauto].
      destruct (String.eqb cs ""); by eauto.
Qed.

Lemma getFullInfo_terminates st e :
  cause_chain_ends st e → ∃ fuel, is_Some (Dist.getFullInfo fuel st e).
Proof.
  intros C. destruct (queries_terminate st e C) as (fuel & H & _).
  exists fuel. by apply H.
Qed.

Lemma getFullStack_terminates st e :
  cause_chain_ends st e → ∃ fuel, is_Some (Dist.getFullStack fuel st e).
Proof.
  intros C. destruct (queries_terminate st e C) as (fuel & _ & H).
  by exists fuel.
Qed.

Lemma getFullInfo_returns_chain fuel : ∀ st e,
  is_Some (Dist.getFullInfo fuel st e) → cause_chain_ends st e.
Proof.
  induction fuel as [|fuel IH]; intros st [| |l]; simpl; intros [x R];
    try (by apply chain_end).
  - apply chain_step. destruct (ref_truthy _) eqn:T; [done|].
    by apply chain_end.
  - apply chain_step.
    change (read_cause _ l) with (read_cause st l) in *.
    destruct (ref_truthy (read_cause st l)) eqn:T; [|by apply chain_end].
    destruct (Dist.getFullInfo fuel _ (read_cause st l)) as [[rc st']|] eqn:Rc; [|done].
    eapply cause_chain_ends_errs; [|apply (IH _ _ (mk_is_Some _ _ Rc))]. done.
Qed.

Lemma getFullStack_returns_chain fuel : ∀ st e,
  is_Some (Dist.getFullStack fuel st e) → cause_chain_ends st e.
Proof.
  induction fuel as [|fuel IH]; intros st [| |l]; simpl; intros [x R];
    try (by apply chain_end).
  - apply chain_step. destruct (ref_truthy _) eqn:T; [done|].
    by apply chain_end.
  - apply chain_step.
    destruct (ref_truthy (read_cause st l)) eqn:T; [|by apply chain_end].
    destruct (Dist.getFullStack fuel st (read_cause st l)) as [cs|] eqn:Rc; [|done].
    apply (IH _ _ (mk_is_Some _ _ Rc)).
Qed.

Lemma getFullStack_nonempty fuel st l s :
  Dist.getFullStack fuel st (EObj l) = Some s → s ≠ "".
Proof.
  assert (B : ∀ tags : option (list Tag),
    match tags with
    | Some ((_ :: _) as ts) =>
        stack_or_placeholder (err_stack (readErr st l)) +:+ nl +:+ join_tag_stacks ts
    | _ => stack_or_placeholder (err_stack (readErr st l))
    end ≠ "").
  { intros [[|t ts]|]; try apply stack_or_placeholder_nonempty.
    apply string_app_nonempty, stack_or_placeholder_nonempty. }
  specialize (B (read_tags st l)).
  destruct fuel as [|fuel]; simpl.
  - destruct (ref_truthy _); [done|]. by intros [= <-].
  - destruct (ref_truthy _); [|by intros [= <-]].
    destruct (Dist.getFullStack fuel st _) as [cs|]; [|done].
    destruct (String.eqb cs ""); intros [= <-]; [done|].
    by apply string_app_nonempty.
Qed.

(** ** The tag array under the capacity step *)

Lemma call_tag_not_dropped c : call_tag c ≠ DROPPED_TAGS_ERROR.
Proof. unfold call_tag, make_tag. by destruct (call_host c). Qed.

Lemma call_tags_not_dropped (calls : list TagCall) :
  Forall (fun t => t ≠ DROPPED_TAGS_ERROR) (map call_tag calls).
Proof.
  induction calls as [|c calls IH]; constructor; [apply call_tag_not_dropped | done].
Qed.

(** [tag] reaches the capacity step with a non-empty array only. *)
Lemma cap_tags_nonempty (maxTags : positive) (a : list Tag) :
  (Pos.to_nat maxTags ≤ length a)%nat → a ≠ [].
Proof. intros H ->. simpl in H. lia. Qed.

Lemma second_is_dropped_false (a : list Tag) :
  Forall (fun t => t ≠ DROPPED_TAGS_ERROR) a → second_is_dropped a = false.
Proof.
  intros F. unfold second_is_dropped. apply bool_decide_eq_false. intros H.
  apply list_elem_of_lookup_2 in H.
  by apply (proj1 (Forall_forall _ _) F) in H.
Qed.

Lemma second_is_dropped_true (a : Tag) (rest : list Tag) :
  second_is_dropped (a :: DROPPED_TAGS_ERROR :: rest) = true.
Proof. by apply bool_decide_eq_true. Qed.

Lemma capped_length (maxTags : positive) (ts : list Tag) :
  (Pos.to_nat maxTags < length ts)%nat →
  length (capped maxTags ts) = S (Nat.max (Pos.to_nat maxTags) 2).
Proof.
  intros H. unfold capped. destruct (decide _) as [?|_]; [lia|].
  rewrite !length_app, length_take, length_drop.
  change (length [DROPPED_TAGS_ERROR]) with 1. lia.
Qed.

(** One more tag on a capped array gives the capped array of one more tag. *)
Lemma tag_array_capped (maxTags : positive) (ts : list Tag) (t : Tag) :
  Forall (fun t => t ≠ DROPPED_TAGS_ERROR) ts →
  Dist.tag_array maxTags (capped maxTags ts) t = capped maxTags (ts ++ [t]).
Proof.
  intros F. unfold Dist.tag_array, push, Dist.cap_tags.
  pose proof (Pos2Nat.is_pos maxTags) as Hpos.
  set (m := Pos.to_nat maxTags) in *.
  unfold capped. fold m. rewrite length_app.
  change (length [t]) with 1.
  destruct (decide (length ts ≤ m)%nat) as [Hle|Hgt].
  - (* nothing dropped so far *)
    destruct (decide (m ≤ length ts)%nat) as [Hfull|Hroom].
    + (* first overflow: the second entry becomes the sentinel *)
      assert (length ts = m) as Hlen by lia.
      destruct (decide (length ts + 1 ≤ m)%nat) as [?|_]; [lia|].
      rewrite (second_is_dropped_false ts F). unfold set_index1.
      destruct ts as [|a [|b ts]]; simpl in *; [lia | |].
      * assert (m = 1) as -> by lia. reflexivity.
      * replace (S (S (length ts + 1)) - Nat.max (m - 1) 1) with 2 by lia.
        reflexivity.
    + destruct (decide (length ts + 1 ≤ m)%nat) as [_|?]; [done | lia].
  - (* already capped: the entry after the sentinel goes *)
    destruct (decide (length ts + 1 ≤ m)%nat) as [?|_]; [lia|].
    set (k := Nat.max (m - 1) 1).
    destruct ts as [|a ts]; [simpl in *; lia|].
    change (take 1 (a :: ts)) with [a].
    change (take 1 ((a :: ts) ++ [t])) with [a].
    destruct (decide _) as [_|Hn].
    + set (rest := drop (length (a :: ts) - k) (a :: ts)).
      change ([a] ++ [DROPPED_TAGS_ERROR] ++ rest)%list with (a :: DROPPED_TAGS_ERROR :: rest).
      rewrite second_is_dropped_true.
      replace (splice_2_1 (a :: DROPPED_TAGS_ERROR :: rest))
        with (a :: DROPPED_TAGS_ERROR :: drop 1 rest) by (by destruct rest).
      subst rest. rewrite drop_drop.
      replace (length (a :: ts) + 1 - k) with (length (a :: ts) - k + 1)
        by (unfold k; lia).
      rewrite drop_app_le by (unfold k; lia).
      reflexivity.
    + exfalso. apply Hn. rewrite !length_app, length_drop.
      change (length [a]) with 1. change (length [DROPPED_TAGS_ERROR]) with 1.
      unfold k. lia.
Qed.

(** Tagging a never-tagged error with [ts], in order, leaves the capped
    array of [ts]. *)
Lemma fold_tag_array_capped (maxTags : positive) (ts : list Tag) :
  Forall (fun t => t ≠ DROPPED_TAGS_ERROR) ts →
  fold_left (Dist.tag_array maxTags) ts [] = capped maxTags ts.
Proof.
  induction ts as [|t ts IH] using rev_ind; intros F.
  - unfold capped. destruct (decide _) as [_|N]; [done | simpl in N; lia].
  - apply Forall_app in F as [F1 F2].
    rewrite fold_left_app. simpl. rewrite IH by done.
    by apply tag_array_capped.
Qed.

Lemma count_dropped_none (a : list Tag) :
  Forall (fun t => t ≠ DROPPED_TAGS_ERROR) a → count_dropped a = 0.
Proof.
  unfold count_dropped. induction 1 as [|t a Ht _ IH]; [done|].
  by rewrite filter_cons_False.
Qed.

(** ** [tag] on the store *)

Lemma read_tags_set_tags st l a : read_tags (set_tags st l a) l = Some a.
Proof. unfold read_tags, set_tags, readErr, writeErr. simpl. by rewrite lookup_insert_eq. Qed.

Lemma tag_calls_spec (maxTags : positive) (calls : list TagCall) : ∀ st l,
  ∃ st', tag_calls maxTags st (EObj l) calls = Returns (EObj l) st'
    ∧ default [] (read_tags st' l)
      = fold_left (Dist.tag_array maxTags) (map call_tag calls) (default [] (read_tags st l))
    ∧ (calls ≠ [] → is_Some (read_tags st' l)).
Proof.
  induction calls as [|c calls IH]; intros st l; simpl.
  - by eexists.
  - destruct (IH (set_tags st l
       (Dist.tag_array maxTags (default [] (read_tags st l)) (call_tag c))) l)
      as (st' & R & T & S).
    exists st'. split; [exact R|]. rewrite read_tags_set_tags in T. split; [exact T|].
    intros _. destruct calls as [|c' calls].
    + simpl in R. injection R as <-. rewrite read_tags_set_tags. by eexists.
    + by apply S.
Qed.

(** Five tags with [maxTags = 3]: the first tag, the sentinel and the two
    most recent tags remain. *)
Example five_tags_max_3 :
  fold_left (Dist.tag_array 3) (map call_tag (numbered_calls 5)) []
  = [ TaggedError (JStr "test message 0") JUndefined "TaggedError: test message 0";
      DROPPED_TAGS_ERROR;
      TaggedError (JStr "test message 3") JUndefined "TaggedError: test message 3";
      TaggedError (JStr "test message 4") JUndefined "TaggedError: test message 4" ].
Proof. reflexivity. Qed.

(** ** [indent] puts the unit in front of every line *)

Lemma indent_tail_step (c : ascii) (s : string) :
  is_lf_cr c = false → starts_ls_ps c s = false →
  indent_tail (String c s) = String c (indent_tail s).
Proof.
  intros H1 H2. cbn [indent_tail]. rewrite H1.
  destruct s as [|c1 [|c2 s2]]; try reflexivity.
  cbn [starts_ls_ps] in H2. by rewrite H2.
Qed.

Lemma is_ls_ps_lf_second c c2 : is_ls_ps c "010" c2 = false.
Proof. unfold is_ls_ps. by rewrite andb_false_r. Qed.

Lemma is_ls_ps_lf_third c c1 : is_ls_ps c c1 "010" = false.
Proof. unfold is_ls_ps. by rewrite andb_false_r. Qed.

(** A terminator-free line followed by a newline: the unit goes in after
    the newline and nowhere before it. *)
Lemma indent_tail_line (line rest : string) :
  has_terminator line = false →
  indent_tail (line +:+ nl +:+ rest)
  = line +:+ nl +:+ indent_unit +:+ indent_tail rest.
Proof.
  induction line as [|c line IH]; intros H; [reflexivity|].
  cbn [has_terminator] in H.
  apply orb_false_elim in H as [H H3].
  apply orb_false_elim in H as [H1 H2].
  rewrite !string_app_cons, indent_tail_step, IH; [done | done | done |].
  destruct line as [|c1 [|c2 line]].
  - destruct rest as [|c2 rest]; [reflexivity|].
    exact (is_ls_ps_lf_second c c2).
  - exact (is_ls_ps_lf_third c c1).
  - exact H2.
Qed.

Lemma indent_tail_last (line : string) :
  has_terminator line = false → indent_tail line = line.
Proof.
  induction line as [|c line IH]; intros H; [reflexivity|].
  cbn [has_terminator] in H.
  apply orb_false_elim in H as [H H3].
  apply orb_false_elim in H as [H1 H2].
  by rewrite indent_tail_step, IH.
Qed.

Lemma indent_lines (lines : list string) :
  lines ≠ [] →
  Forall (fun line => has_terminator line = false) lines →
  indent (String.concat nl lines)
  = String.concat nl (map (fun line => indent_unit +:+ line) lines).
Proof.
  unfold indent. induction lines as [|x lines IH]; [done|]. intros _ F.
  inversion F as [|? ? Fx Flines]; subst.
  destruct lines as [|y lines].
  - simpl. by rewrite indent_tail_last.
  - change (String.concat nl (x :: y :: lines))
      with (x +:+ nl +:+ String.concat nl (y :: lines)).
    change (String.concat nl (map _ (x :: y :: lines)))
      with ((indent_unit +:+ x) +:+ nl
            +:+ String.concat nl (map (fun line => indent_unit +:+ line) (y :: lines))).
    rewrite indent_tail_line by done.
    rewrite <- IH by done.
    by rewrite !string_app_assoc.
Qed.

(** [^] also matches after a carriage return, so a CR LF pair gets the
    unit twice. *)
Example indent_cr_lf :
  indent ("a" +:+ String "013" nl +:+ "b")
  = "    a" +:+ String "013" ("    " +:+ nl +:+ "    b").
Proof. reflexivity. Qed.

Example indent_trailing_newline : indent ("a" +:+ nl) = "    a" +:+ nl +:+ "    ".
Proof. reflexivity. Qed.

Example indent_empty : indent "" = "    ".
Proof. reflexivity. Qed.

(** * The claims *)

(** ** Null-safety, identity and the fluent setters *)

(** C4.  [getFullInfo] of a [null] or [undefined] error returns a new
    empty object and [getFullStack] returns the empty string, whatever the
    fuel; [tagIfExists] of a [null] or [undefined] error returns that
    argument, throws nothing and leaves the store as it was; and on an
    error object [tagIfExists] is [tag]. *)
Theorem null_defensive_queries_and_tagIfExists :
  (∀ fuel st e, ref_truthy e = false →
     (∃ r st', Dist.getFullInfo fuel st e = Some (r, st')
               ∧ objs st' !! r = Some ∅ ∧ (r ∉ dom (objs st)) ∧ grows st st')
     ∧ (∃ r st', Part000.getFullInfo st e = (r, st')
                 ∧ objs st' !! r = Some ∅ ∧ (r ∉ dom (objs st)) ∧ grows st st')
     ∧ Dist.getFullStack fuel st e = Some ""
     ∧ Part000.getFullStack fuel st e = Some "")
  ∧ (∀ st e message info h, ref_truthy e = false →
       Part000.tagIfExists st e message info h = Returns e st)
  ∧ (∀ st l message info h,
       Part000.tagIfExists st (EObj l) message info h
       = Part000.tag st (EObj l) message info h).
Proof.
  split; [|split].
  - intros fuel st e F.
    assert (A : objs (alloc_object st ∅).2 !! (alloc_object st ∅).1 = Some ∅
                ∧ ((alloc_object st ∅).1 ∉ dom (objs st))
                ∧ grows st (alloc_object st ∅).2).
    { split; [apply alloc_object_lookup|].
      split; [apply alloc_object_fresh | apply alloc_object_grows]. }
    destruct e as [| |l]; [| |discriminate];
      (split; [|split; [|split]];
       [ destruct fuel; eexists _, _; (split; [reflexivity | exact A])
       | eexists _, _; (split; [reflexivity | exact A])
       | by destruct fuel
       | by destruct fuel ]).
  - intros st e message info h F. unfold Part000.tagIfExists. by rewrite F.
  - reflexivity.
Qed.

Lemma null_defensive_queries_and_tagIfExists_witness :
  Dist.getFullStack 0 emptyStore ENull = Some ""
  ∧ Part000.tagIfExists emptyStore EUndefined (JStr "m") JUndefined
      (CaptureStackTrace "TaggedError: m") = Returns EUndefined emptyStore.
Proof.
  split.
  - apply (proj1 null_defensive_queries_and_tagIfExists 0 emptyStore ENull). reflexivity.
  - apply (proj1 (proj2 null_defensive_queries_and_tagIfExists)). reflexivity.
Defined.

(** C5.  On an error object [tag] throws nothing and returns the
    reference it was given; in the store it leaves, that same object has
    the array of before, after the capacity step, with exactly one entry
    more at the end, the tag made from this call's message and info; the
    object's other properties, every other error object and every plain
    object are as before. *)
Theorem tag_returns_same_reference (maxTags : positive) (st : Store) (l : loc)
    (message info : JsVal) (h : HostTrace) :
  ∃ st',
    Dist.tag maxTags st (EObj l) message info h = Returns (EObj l) st'
    ∧ read_tags st' l
      = Some (Dist.cap_tags maxTags (default [] (read_tags st l))
              ++ [make_tag h message info])
    ∧ length (default [] (read_tags st' l))
      = S (length (Dist.cap_tags maxTags (default [] (read_tags st l))))
    ∧ ((length (default [] (read_tags st l)) < Pos.to_nat maxTags)%nat →
       read_tags st' l = Some (default [] (read_tags st l) ++ [make_tag h message info]))
    ∧ read_info st' l = read_info st l
    ∧ read_cause st' l = read_cause st l
    ∧ err_stack (readErr st' l) = err_stack (readErr st l)
    ∧ (∀ l', l' ≠ l → errs st' !! l' = errs st !! l')
    ∧ objs st' = objs st.
Proof.
  eexists. split; [reflexivity|].
  rewrite read_tags_set_tags. unfold Dist.tag_array, push.
  split; [reflexivity|]. split.
  { simpl. rewrite length_app. simpl. lia. }
  split.
  { intros Hlt. unfold Dist.cap_tags. destruct (decide _) as [?|_]; [lia | done]. }
  unfold read_info, read_cause, readErr, set_tags, writeErr. simpl.
  rewrite lookup_insert_eq. simpl.
  repeat split; try reflexivity.
  intros l' N. by rewrite lookup_insert_ne.
Qed.

(** C6.  [withInfo] returns the receiver and leaves its [info] property
    holding exactly the value passed; [withCause] returns the receiver and
    leaves its [cause] property holding the value passed, whatever cause
    there was before.  Neither touches the other properties. *)
Theorem withInfo_withCause_fluent (st : Store) (this : loc) :
  (∀ info,
     (withInfo st this info).1 = EObj this
     ∧ err_info (readErr (withInfo st this info).2 this) = Some info
     ∧ read_info (withInfo st this info).2 this = info
     ∧ read_cause (withInfo st this info).2 this = read_cause st this
     ∧ read_tags (withInfo st this info).2 this = read_tags st this)
  ∧ (∀ cause,
       (withCause st this cause).1 = EObj this
       ∧ err_cause (readErr (withCause st this cause).2 this) = Some cause
       ∧ read_cause (withCause st this cause).2 this = cause
       ∧ read_info (withCause st this cause).2 this = read_info st this
       ∧ read_tags (withCause st this cause).2 this = read_tags st this)
  ∧ (∀ c1 c2,
       read_cause (withCause (withCause st this c1).2 this c2).2 this = c2).
Proof.
  unfold withInfo, withCause, read_info, read_cause, read_tags, readErr, writeErr.
  split; [|split]; intros; simpl; rewrite ?lookup_insert_eq; simpl;
    rewrite ?lookup_insert_eq; done.
Qed.

(** Outside C5's well-formed inputs: [tag] does not guard against a
    [null] or [undefined] error, it throws. *)
Example tag_null_throws (maxTags : positive) (st : Store) (message info : JsVal)
    (h : HostTrace) :
  Dist.tag maxTags st ENull message info h = Throws TypeError
  ∧ Dist.tag maxTags st EUndefined message info h = Throws TypeError.
Proof. split; reflexivity. Qed.

Lemma tag_returns_same_reference_witness :
  ∃ st', Dist.tag 100 fresh_error_store (EObj 0) (JStr "m") JUndefined
           (CaptureStackTrace "TaggedError: m") = Returns (EObj 0) st'
         ∧ read_tags st' 0
           = Some [TaggedError (JStr "m") JUndefined "TaggedError: m"].
Proof.
  destruct (tag_returns_same_reference 100 fresh_error_store 0 (JStr "m") JUndefined
              (CaptureStackTrace "TaggedError: m")) as (st' & R & _ & _ & T & _).
  exists st'. split; [exact R|]. apply T. vm_compute. lia.
Defined.

(** ** The capacity of the tag array *)

(** C1, as the code has it.  With [maxTags] at least 2, tagging a
    never-tagged error more often than [maxTags] leaves an array of
    [maxTags + 1] entries: the first tag, then the sentinel, which occurs
    once, then the most recent [maxTags - 1] tags.  Every tag of an
    overflowing call is appended, so the last entry is the tag of the
    last call; what goes is the oldest entry after the sentinel. *)
Theorem tag_capacity_first_sentinel_recent (maxTags : positive) (st : Store)
    (l : loc) (calls : list TagCall) :
  2 ≤ Pos.to_nat maxTags →
  read_tags st l = None →
  Pos.to_nat maxTags < length calls →
  ∃ st' tags,
    tag_calls maxTags st (EObj l) calls = Returns (EObj l) st'
    ∧ read_tags st' l = Some tags
    ∧ length tags = S (Pos.to_nat maxTags)
    ∧ tags !! 0 = call_tag <$> head calls
    ∧ tags !! 1 = Some DROPPED_TAGS_ERROR
    ∧ count_dropped tags = 1
    ∧ drop 2 tags
      = map call_tag (drop (length calls - (Pos.to_nat maxTags - 1)) calls)
    ∧ last tags = call_tag <$> last calls.
Proof.
  intros Hmax Hnone Hlen.
  destruct (tag_calls_spec maxTags calls st l) as (st' & R & T & S).
  pose proof (call_tags_not_dropped calls) as F.
  rewrite Hnone in T. simpl in T. rewrite (fold_tag_array_capped _ _ F) in T.
  destruct S as [tags Htags]; [by intros ->; simpl in Hlen; lia|].
  rewrite Htags in T. simpl in T. subst tags.
  exists st', (capped maxTags (map call_tag calls)).
  split; [exact R|]. split; [exact Htags|].
  split; [rewrite capped_length by (by rewrite length_map); lia|].
  unfold capped. rewrite length_map.
  destruct (decide _) as [?|_]; [lia|].
  replace (Nat.max (Pos.to_nat maxTags - 1) 1) with (Pos.to_nat maxTags - 1) by lia.
  set (k := Pos.to_nat maxTags - 1).
  destruct calls as [|c calls]; [simpl in Hlen; lia|].
  change (take 1 (map call_tag (c :: calls))) with [call_tag c].
  change ([call_tag c] ++ [DROPPED_TAGS_ERROR] ++ ?r)
    with (call_tag c :: DROPPED_TAGS_ERROR :: r).
  rewrite skipn_map.
  split; [reflexivity|]. split; [reflexivity|]. split.
  { unfold count_dropped.
    rewrite filter_cons_False by apply call_tag_not_dropped.
    rewrite filter_cons_True by reflexivity. simpl. f_equal.
    rewrite <- skipn_map.
    apply count_dropped_none, Forall_drop, (call_tags_not_dropped (c :: calls)). }
  split; [reflexivity|].
  rewrite !last_lookup.
  change (map call_tag ?x) with (call_tag <$> x).
  change (length (?a :: ?b :: ?r)) with (S (S (length r))).
  change (pred (S (S ?n))) with (S n).
  rewrite length_fmap, length_drop.
  change (length (c :: calls)) with (S (length calls)) in *.
  change (pred (S (length calls))) with (length calls).
  replace (S (S (length calls) - (S (length calls) - k))) with (S (S (pred k)))
    by (unfold k; lia).
  change ((?a :: ?b :: ?r) !! S (S ?n)) with (r !! n).
  rewrite list_lookup_fmap, lookup_drop.
  replace (S (length calls) - k + pred k) with (length calls) by (unfold k; lia).
  reflexivity.
Qed.

Lemma tag_capacity_first_sentinel_recent_witness :
  ∃ tags, tags_after_150 = Some tags
    ∧ length tags = 101
    ∧ tags !! 1 = Some DROPPED_TAGS_ERROR
    ∧ count_dropped tags = 1.
Proof.
  destruct (tag_capacity_first_sentinel_recent Dist.default_maxTags fresh_error_store 0
              (numbered_calls 150))
    as (st' & tags & R & T & L & _ & S & C & _).
  - vm_compute. lia.
  - reflexivity.
  - vm_compute. lia.
  - exists tags. unfold tags_after_150. rewrite R. repeat split; assumption.
Defined.

(** C1, as stated, fails: after 150 tags with a maximum of 100 the array
    has 101 entries, not at most 100, and the tag of the 150th call, an
    overflow tag, is its last entry. *)
Lemma tag_150_max_100_exceeds_100 :
  ∃ tags, tags_after_150 = Some tags
    ∧ ¬ (length tags ≤ 100)
    ∧ last tags = call_tag <$> last (numbered_calls 150).
Proof.
  eexists. split; [vm_compute; reflexivity|].
  split; [vm_compute; lia | vm_compute; reflexivity].
Qed.

(** ** The constructor *)

Lemma readErr_OError cls st message info cause hostStack :
  readErr (OError cls st message info cause hostStack).2
          (OError cls st message info cause hostStack).1
  = {| err_message := message; err_name := cls; err_stack := hostStack;
       err_info := if truthy info then Some info else None;
       err_cause := if ref_truthy cause then Some cause else None;
       err_oErrorTags := None |}.
Proof. unfold OError, readErr, writeErr. simpl. by rewrite lookup_insert_eq. Qed.

(** An untagged error without own info and without a cause has an empty
    full info. *)
Lemma getFullInfo_bare fuel st l :
  read_info st l = JUndefined → read_tags st l = None →
  ref_truthy (read_cause st l) = false →
  ∃ r st', Dist.getFullInfo fuel st (EObj l) = Some (r, st') ∧ objs st' !! r = Some ∅.
Proof.
  intros Hi Ht Hc.
  assert (G := alloc_object_grows st ∅).
  eexists _, _. split.
  - destruct fuel; simpl;
      change (read_cause _ l) with (read_cause (alloc_object st ∅).2 l);
      rewrite (grows_read_cause G l), Hc; reflexivity.
  - unfold assign_info_and_tags.
    change (read_info _ l) with (read_info (alloc_object st ∅).2 l).
    rewrite (grows_read_info G l), Hi. simpl.
    change (read_tags _ l) with (read_tags (alloc_object st ∅).2 l).
    rewrite (grows_read_tags G l), Ht.
    apply lookup_insert_eq.
Qed.

(** C10, as the code has it.  The constructor stores [info] exactly when
    the argument is truthy and [cause] exactly when the argument is
    truthy, and creates no tag array.  With a falsy [info] the outcome is
    the one of passing [undefined].  When the cause argument is falsy as
    well, [getFullInfo] of the new error returns an empty object; in
    [src/unnamed/part_000], whose [getFullInfo] does not look at the
    cause, it does so for every cause. *)
Theorem constructor_falsy_arguments_absent (cls : string) (st : Store)
    (message : string) (info : JsVal) (cause : ErrRef) (hostStack : option string) :
  let this := (OError cls st message info cause hostStack).1 in
  let st' := (OError cls st message info cause hostStack).2 in
  (this ∉ dom (errs st))
  ∧ err_info (readErr st' this) = (if truthy info then Some info else None)
  ∧ err_cause (readErr st' this) = (if ref_truthy cause then Some cause else None)
  ∧ read_tags st' this = None
  ∧ (truthy info = false →
       err_info (readErr st' this) = None
       ∧ OError cls st message info cause hostStack
         = OError cls st message JUndefined cause hostStack
       ∧ (ref_truthy cause = false →
            ∀ fuel, ∃ r st'', Dist.getFullInfo fuel st' (EObj this) = Some (r, st'')
                              ∧ objs st'' !! r = Some ∅)
       ∧ (∃ r st'', Part000.getFullInfo st' (EObj this) = (r, st'')
                    ∧ objs st'' !! r = Some ∅)).
Proof.
  intros this st'.
  assert (E : readErr st' this
    = {| err_message := message; err_name := cls; err_stack := hostStack;
         err_info := if truthy info then Some info else None;
         err_cause := if ref_truthy cause then Some cause else None;
         err_oErrorTags := None |}) by apply readErr_OError.
  split; [apply is_fresh|].
  unfold read_tags. rewrite E. simpl.
  split; [reflexivity|]. split; [reflexivity|]. split; [reflexivity|].
  intros F. rewrite F. split; [reflexivity|].
  split; [unfold OError; by rewrite F|].
  assert (Hi : read_info st' this = JUndefined).
  { unfold read_info. rewrite E. simpl. by rewrite F. }
  assert (Ht : read_tags st' this = None).
  { unfold read_tags. by rewrite E. }
  split.
  - intros Fc fuel. apply getFullInfo_bare; [done | done |].
    unfold read_cause. rewrite E. simpl. by rewrite Fc.
  - eexists _, _. split; [reflexivity|].
    assert (G := alloc_object_grows st' ∅).
    unfold assign_info_and_tags.
    change (read_info _ this) with (read_info (alloc_object st' ∅).2 this).
    rewrite (grows_read_info G this), Hi. simpl.
    change (read_tags _ this) with (read_tags (alloc_object st' ∅).2 this).
    rewrite (grows_read_tags G this), Ht.
    apply lookup_insert_eq.
Qed.

Lemma constructor_falsy_arguments_absent_witness :
  ∃ r st'', Dist.getFullInfo 0 (OError "OError" emptyStore "e" JNull ENull None).2
              (EObj (OError "OError" emptyStore "e" JNull ENull None).1) = Some (r, st'')
            ∧ objs st'' !! r = Some ∅.
Proof.
  destruct (constructor_falsy_arguments_absent "OError" emptyStore "e" JNull ENull None)
    as (_ & _ & _ & _ & H).
  destruct (H eq_refl) as (_ & _ & H' & _).
  exact (H' eq_refl 0).
Defined.

(** C10, as stated, fails in [src/dist/index.js]: an untagged error
    constructed with [info = null] and a cause that carries [{x: 1}] has
    no [info] property, and its full info is [{x: 1}], not empty. *)
Lemma falsy_info_with_cause_full_info_nonempty :
  truthy JNull = false
  ∧ err_info (readErr falsy_info_with_cause_store.2 falsy_info_with_cause_store.1) = None
  ∧ read_tags falsy_info_with_cause_store.2 falsy_info_with_cause_store.1 = None
  ∧ result_props (Dist.getFullInfo 1 falsy_info_with_cause_store.2
                    (EObj falsy_info_with_cause_store.1))
    = Some {[ "x" := JNum 1 ]}
  ∧ result_props (Dist.getFullInfo 1 falsy_info_with_cause_store.2
                    (EObj falsy_info_with_cause_store.1))
    ≠ Some ∅.
Proof.
  split; [reflexivity|]. split; [reflexivity|]. split; [reflexivity|].
  assert (E : result_props (Dist.getFullInfo 1 falsy_info_with_cause_store.2
                    (EObj falsy_info_with_cause_store.1))
    = Some {[ "x" := JNum 1 ]}) by (vm_compute; reflexivity).
  split; [exact E|]. rewrite E. discriminate.
Qed.

(** ** Merged info *)

Lemma chain_fullInfo st e :
  cause_chain_ends st e → ∃ fuel m, fullInfo fuel st e = Some m.
Proof.
  induction 1 as [e F | l _ (fuel & m & IH)].
  - exists 0. destruct e; simpl in *; by eauto.
  - exists (S fuel). simpl. rewrite IH. destruct (ref_truthy _); by eauto.
Qed.

Lemma returns_info_fullInfo st e fuel m :
  refs_allocated st → fullInfo fuel st e = Some m → returns_info st e m.
Proof.
  intros W E. pose proof (getFullInfo_fullInfo fuel st e W) as H.
  rewrite E in H. destruct H as (r & st' & R & _ & _ & L).
  by exists fuel, r, st'.
Qed.

(** Last write wins, key by key. *)
Lemma merge_in_order_last (base : Props) (sources : list Props) (src : Props) (k : string) :
  merge_in_order base (sources ++ [src]) !! k
  = match src !! k with
    | Some v => Some v
    | None => merge_in_order base sources !! k
    end.
Proof.
  unfold merge_in_order. rewrite fold_left_app. simpl. unfold assign_props at 1.
  rewrite lookup_union. destruct (src !! k), (fold_left _ _ _ !! k); reflexivity.
Qed.

(** C2.  For an error object in a store without dangling references and
    with a finite cause chain, [getFullInfo] returns an object whose
    properties are the merge, in order and last write wins, of the full
    info of the cause when there is one (as [getFullInfo] returns it for
    the cause), then the error's own [info] when that is an object, then
    the [info] of each tag in array order.  Merging in order means that a
    key has the value of the last source that defines it.  The two
    worked examples give [{a: 3}] and [{x: 2}]. *)
Theorem getFullInfo_merge_order :
  (∀ st l, refs_allocated st → cause_chain_ends st (EObj l) →
     ∃ fromCause,
       (if ref_truthy (read_cause st l)
        then returns_info st (read_cause st l) fromCause
        else fromCause = ∅)
       ∧ returns_info st (EObj l) (merge_in_order fromCause (info_sources st l)))
  ∧ (∀ base sources src k,
       merge_in_order base (sources ++ [src]) !! k
       = match src !! k with
         | Some v => Some v
         | None => merge_in_order base sources !! k
         end)
  ∧ result_props (Dist.getFullInfo 0 tagging_order_store.2 (EObj tagging_order_store.1))
    = Some {[ "a" := JNum 3 ]}
  ∧ result_props (Dist.getFullInfo 1 cause_precedence_store.2 (EObj cause_precedence_store.1))
    = Some {[ "x" := JNum 2 ]}.
Proof.
  split; [|split; [exact merge_in_order_last | split; vm_compute; reflexivity]].
  intros st l W C.
  inversion C as [e F | l' C']; subst; [discriminate|].
  destruct (ref_truthy (read_cause st l)) eqn:T.
  - destruct (chain_fullInfo _ _ C') as (fuel & mc & E).
    exists mc. split; [by eapply returns_info_fullInfo|].
    apply (returns_info_fullInfo st (EObj l) (S fuel)); [done|].
    simpl. by rewrite T, E.
  - exists ∅. split; [done|].
    apply (returns_info_fullInfo st (EObj l) 0); [done|].
    simpl. by rewrite T.
Qed.

Lemma getFullInfo_merge_order_witness :
  ∃ fromCause,
    returns_info cause_precedence_store.2
      (read_cause cause_precedence_store.2 cause_precedence_store.1) fromCause
    ∧ returns_info cause_precedence_store.2 (EObj cause_precedence_store.1)
        (merge_in_order fromCause
           (info_sources cause_precedence_store.2 cause_precedence_store.1)).
Proof.
  apply (proj1 getFullInfo_merge_order cause_precedence_store.2 cause_precedence_store.1).
  - apply (bool_decide_unpack _). vm_compute. exact I.
  - apply chain_step, chain_step, chain_end. reflexivity.
Defined.

(** C7.  An error object that was never tagged and has no cause: its
    full stack is its own stack, or ["(no stack)"] when the stack is
    absent or empty; and [getFullInfo] returns a new object with the
    properties of its [info] object, or with none when [info] is absent
    or not an object. *)
Theorem untagged_uncaused_round_trip (fuel : nat) (st : Store) (l : loc) :
  read_tags st l = None →
  ref_truthy (read_cause st l) = false →
  Dist.getFullStack fuel st (EObj l)
  = Some (stack_or_placeholder (err_stack (readErr st l)))
  ∧ (∀ s, err_stack (readErr st l) = Some s → s ≠ "" →
       Dist.getFullStack fuel st (EObj l) = Some s)
  ∧ (err_stack (readErr st l) = None →
       Dist.getFullStack fuel st (EObj l) = Some "(no stack)")
  ∧ ∃ r st', Dist.getFullInfo fuel st (EObj l) = Some (r, st')
      ∧ (r ∉ dom (objs st))
      ∧ objs st' !! r
        = Some (match read_info st l with
                | JObject x => readObj st x
                | _ => ∅
                end).
Proof.
  intros Ht Hc.
  assert (S : Dist.getFullStack fuel st (EObj l)
              = Some (stack_or_placeholder (err_stack (readErr st l)))).
  { destruct fuel; simpl; by rewrite Ht, Hc. }
  split; [exact S|]. split; [|split].
  - intros s E N. rewrite S, E. simpl.
    destruct (String.eqb_spec s ""); [done | reflexivity].
  - intros E. by rewrite S, E.
  - assert (G := alloc_object_grows st ∅).
    pose proof (alloc_object_fresh st ∅) as Fr.
    eexists _, _. split; [|split; [exact Fr|]].
    + destruct fuel; simpl;
        change (read_cause _ l) with (read_cause (alloc_object st ∅).2 l);
        rewrite (grows_read_cause G l), Hc; reflexivity.
    + unfold assign_info_and_tags.
      change (read_info _ l) with (read_info (alloc_object st ∅).2 l).
      rewrite (grows_read_info G l).
      set (r := fresh (dom (objs st))) in *.
      assert (Hr : readObj st r = ∅).
      { unfold readObj. by rewrite (proj1 (not_elem_of_dom _ _) Fr). }
      destruct (read_info st l) as [| | | | | |x] eqn:Hi; simpl;
        change (read_tags _ l) with (read_tags (alloc_object st ∅).2 l) at 1;
        try (rewrite (grows_read_tags G l), Ht; apply lookup_insert_eq).
      * set (st1 := object_assign _ _ _).
        assert (G1 : grows st st1) by (apply object_assign_grows; done).
        change (read_tags _ l) with (read_tags st1 l).
        rewrite (grows_read_tags G1 l), Ht.
        subst st1. rewrite object_assign_lookup. f_equal. unfold assign_props.
        unfold own_enumerable, readObj. simpl. rewrite lookup_insert_eq. simpl.
        by rewrite (right_id_L ∅ (∪)).
      * set (st1 := object_assign _ _ _).
        assert (G1 : grows st st1) by (apply object_assign_grows; done).
        change (read_tags _ l) with (read_tags st1 l).
        rewrite (grows_read_tags G1 l), Ht.
        subst st1. rewrite object_assign_lookup. f_equal. unfold assign_props.
        unfold own_enumerable, readObj. simpl. rewrite lookup_insert_eq. simpl.
        rewrite (right_id_L ∅ (∪)).
        destruct (decide (x = r)) as [->|N].
        -- rewrite lookup_insert_eq. simpl.
           by rewrite (proj1 (not_elem_of_dom _ _) Fr).
        -- by rewrite lookup_insert_ne.
Qed.

Lemma untagged_uncaused_round_trip_witness :
  Dist.getFullStack 0 fresh_error_store (EObj 0) = Some "Error: test error".
Proof.
  destruct (untagged_uncaused_round_trip 0 fresh_error_store 0) as (_ & S & _).
  - reflexivity.
  - reflexivity.
  - apply (S "Error: test error"); [reflexivity | discriminate].
Defined.

(** ** Full stack *)

Lemma stack_with_tags (stack : string) (tags : option (list Tag)) :
  match tags with
  | Some ((_ :: _) as ts) => stack +:+ nl +:+ join_tag_stacks ts
  | _ => stack
  end
  = stack +:+ on_new_lines (map tag_stack (default [] tags)).
Proof.
  destruct tags as [[|t ts]|].
  - simpl. by rewrite string_app_nil_r.
  - unfold join_tag_stacks.
    change (default [] (Some (t :: ts))) with (t :: ts).
    by rewrite <- join_on_new_lines.
  - simpl. by rewrite string_app_nil_r.
Qed.

Lemma getFullStack_no_cause fuel st l :
  ref_truthy (read_cause st l) = false →
  Dist.getFullStack fuel st (EObj l)
  = Some (stack_or_placeholder (err_stack (readErr st l))
          +:+ on_new_lines (map tag_stack (default [] (read_tags st l)))).
Proof.
  intros T. destruct fuel; simpl; rewrite T; by rewrite stack_with_tags.
Qed.

Lemma getFullStack_cause fuel st l lc causeStack :
  read_cause st l = EObj lc →
  Dist.getFullStack fuel st (EObj lc) = Some causeStack →
  Dist.getFullStack (S fuel) st (EObj l)
  = Some (stack_or_placeholder (err_stack (readErr st l))
          +:+ on_new_lines (map tag_stack (default [] (read_tags st l)))
          +:+ nl +:+ "caused by:" +:+ nl +:+ indent causeStack).
Proof.
  intros C R. simpl. rewrite C. simpl. rewrite R.
  pose proof (getFullStack_nonempty _ _ _ _ R) as N.
  destruct (String.eqb_spec causeStack ""); [done|].
  by rewrite stack_with_tags, string_app_assoc.
Qed.

(** C3.  For an error object with a finite cause chain [getFullStack]
    returns: the error's own stack, or ["(no stack)"] when it is absent;
    then the stack of every tag in array order, each on a new line; then,
    when there is a cause, a new line, the line ["caused by:"], and the
    full stack [getFullStack] returns for the cause, indented.  Indenting
    puts four spaces in front of every line.  The example of two tags and
    one cause gives the text spelled out. *)
Theorem getFullStack_structure :
  (∀ st l, cause_chain_ends st (EObj l) →
     ∃ fromCause,
       (if ref_truthy (read_cause st l)
        then ∃ causeStack,
               returns_stack st (read_cause st l) causeStack
               ∧ fromCause = nl +:+ "caused by:" +:+ nl +:+ indent causeStack
        else fromCause = "")
       ∧ returns_stack st (EObj l)
           (stack_or_placeholder (err_stack (readErr st l))
            +:+ on_new_lines (map tag_stack (default [] (read_tags st l)))
            +:+ fromCause))
  ∧ stack_or_placeholder None = "(no stack)"
  ∧ (∀ s, s ≠ "" → stack_or_placeholder (Some s) = s)
  ∧ indent_unit = "    "
  ∧ (∀ lines, lines ≠ [] →
       Forall (fun line => has_terminator line = false) lines →
       indent (String.concat nl lines)
       = String.concat nl (map (fun line => indent_unit +:+ line) lines))
  ∧ Dist.getFullStack 1 two_tags_one_cause_store.2 (EObj two_tags_one_cause_store.1)
    = Some ("Error: e" +:+ nl +:+ "TaggedError: m1" +:+ nl +:+ "TaggedError: m2"
            +:+ nl +:+ "caused by:"
            +:+ nl +:+ "    Error: c" +:+ nl +:+ "        at g").
Proof.
  split; [|split; [reflexivity | split; [|split; [reflexivity | split;
    [exact indent_lines | vm_compute; reflexivity]]]]].
  - intros st l C.
    inversion C as [e F | l' C']; subst; [discriminate|].
    destruct (read_cause st l) as [| |lc] eqn:Hc; simpl.
    + exists "". split; [done|]. exists 0.
      rewrite getFullStack_no_cause by (by rewrite Hc). by rewrite string_app_nil_r.
    + exists "". split; [done|]. exists 0.
      rewrite getFullStack_no_cause by (by rewrite Hc). by rewrite string_app_nil_r.
    + destruct (getFullStack_terminates _ _ C') as (fuel & cs & R).
      eexists. split; [exists cs; split; [by exists fuel | reflexivity]|].
      exists (S fuel). by apply getFullStack_cause with lc.
  - intros s N. simpl. destruct (String.eqb_spec s ""); [done | reflexivity].
Qed.

Lemma getFullStack_structure_witness :
  ∃ fromCause,
    (∃ causeStack,
       returns_stack two_tags_one_cause_store.2
         (read_cause two_tags_one_cause_store.2 two_tags_one_cause_store.1) causeStack
       ∧ fromCause = nl +:+ "caused by:" +:+ nl +:+ indent causeStack)
    ∧ returns_stack two_tags_one_cause_store.2 (EObj two_tags_one_cause_store.1)
        (stack_or_placeholder
           (err_stack (readErr two_tags_one_cause_store.2 two_tags_one_cause_store.1))
         +:+ on_new_lines
               (map tag_stack
                  (default [] (read_tags two_tags_one_cause_store.2
                                 two_tags_one_cause_store.1)))
         +:+ fromCause).
Proof.
  apply (proj1 getFullStack_structure two_tags_one_cause_store.2 two_tags_one_cause_store.1).
  apply chain_step, chain_step, chain_end. reflexivity.
Defined.

(** ** Termination *)

Lemma self_caused_chain_never_ends :
  ¬ cause_chain_ends self_caused_store.2 (EObj self_caused_store.1).
Proof.
  intros H. remember (EObj self_caused_store.1) as e eqn:E.
  induction H as [e F | l H IH]; subst; [discriminate|].
  injection E as ->. by apply IH.
Qed.

(** C8.  [getFullInfo] and [getFullStack] return, given enough fuel for
    the recursion, exactly when the cause chain of the error is finite;
    on a chain that never ends, both exceed every bound on the depth of
    the recursion.  The error that is its own cause is such an input. *)
Theorem aggregation_terminates_iff_chain_ends :
  (∀ st e, cause_chain_ends st e →
     (∃ fuel, is_Some (Dist.getFullInfo fuel st e))
     ∧ (∃ fuel, is_Some (Dist.getFullStack fuel st e)))
  ∧ (∀ st e, ¬ cause_chain_ends st e →
       ∀ fuel, Dist.getFullInfo fuel st e = None ∧ Dist.getFullStack fuel st e = None)
  ∧ read_cause self_caused_store.2 self_caused_store.1 = EObj self_caused_store.1
  ∧ (∀ fuel,
       Dist.getFullInfo fuel self_caused_store.2 (EObj self_caused_store.1) = None
       ∧ Dist.getFullStack fuel self_caused_store.2 (EObj self_caused_store.1) = None).
Proof.
  assert (N : ∀ st e, ¬ cause_chain_ends st e →
       ∀ fuel, Dist.getFullInfo fuel st e = None ∧ Dist.getFullStack fuel st e = None).
  { intros st e H fuel. split.
    - destruct (Dist.getFullInfo fuel st e) eqn:R; [|done].
      destruct H. apply (getFullInfo_returns_chain fuel). by rewrite R.
    - destruct (Dist.getFullStack fuel st e) eqn:R; [|done].
      destruct H. apply (getFullStack_returns_chain fuel). by rewrite R. }
  split; [|split; [exact N | split; [reflexivity|]]].
  - intros st e C. split.
    + by apply getFullInfo_terminates.
    + by apply getFullStack_terminates.
  - apply N, self_caused_chain_never_ends.
Qed.

Lemma aggregation_terminates_iff_chain_ends_witness :
  (∃ fuel, is_Some (Dist.getFullInfo fuel cause_precedence_store.2
                      (EObj cause_precedence_store.1)))
  ∧ (∃ fuel, is_Some (Dist.getFullStack fuel cause_precedence_store.2
                        (EObj cause_precedence_store.1))).
Proof.
  apply (proj1 aggregation_terminates_iff_chain_ends).
  apply chain_step, chain_step, chain_end. reflexivity.
Defined.

(** ** The queries leave the store's objects alone *)

Lemma getFullInfo_frame fuel : ∀ st e r st',
  Dist.getFullInfo fuel st e = Some (r, st') →
  (r ∉ dom (objs st)) ∧ grows st st'.
Proof.
  induction fuel as [|fuel IH]; intros st [| |l] r st'; simpl;
    try (intros [= <- <-]; split; [apply is_fresh | apply (alloc_object_grows st ∅)]).
  - destruct (ref_truthy _); [done|]. intros [= <- <-].
    split; [apply is_fresh|].
    apply assign_info_and_tags_grows; [apply is_fresh | apply (alloc_object_grows st ∅)].
  - destruct (ref_truthy _).
    + destruct (Dist.getFullInfo fuel _ _) as [[rc stc]|] eqn:Rc; [|done].
      intros [= <- <-]. split; [apply is_fresh|].
      apply IH in Rc as [_ Gc].
      apply assign_info_and_tags_grows; [apply is_fresh|].
      apply object_assign_grows; [apply is_fresh|].
      eapply grows_trans; [apply (alloc_object_grows st ∅) | exact Gc].
    + intros [= <- <-]. split; [apply is_fresh|].
      apply assign_info_and_tags_grows; [apply is_fresh | apply (alloc_object_grows st ∅)].
Qed.

Lemma getFullStack_grows fuel st st' : ∀ e,
  errs st' = errs st → Dist.getFullStack fuel st' e = Dist.getFullStack fuel st e.
Proof.
  intros e E. revert e.
  assert (Hr : ∀ l, readErr st' l = readErr st l) by (intros; unfold readErr; by rewrite E).
  induction fuel as [|fuel IH]; intros [| |l]; simpl; try done;
    unfold read_tags, read_cause; rewrite Hr; [done|].
  by rewrite IH.
Qed.

(** C9.  On an error with a finite cause chain [getFullInfo] returns,
    and the run leaves every error object as it was (own properties, tag
    arrays, the whole cause chain) and every plain object that existed as
    it was; the object it returns is new.  [getFullStack] returns as
    well; it builds a string and writes nothing, so it gives the same
    answer after that run.  In a store without dangling references a
    second run of [getFullInfo] returns one more new object with the same
    properties, and does not touch the first. *)
Theorem aggregation_queries_frame (st : Store) (e : ErrRef) :
  cause_chain_ends st e →
  ∃ fuel r st',
    Dist.getFullInfo fuel st e = Some (r, st')
    ∧ errs st' = errs st
    ∧ (r ∉ dom (objs st))
    ∧ (∀ x, x ∈ dom (objs st) → objs st' !! x = objs st !! x)
    ∧ is_Some (Dist.getFullStack fuel st e)
    ∧ Dist.getFullStack fuel st' e = Dist.getFullStack fuel st e
    ∧ (refs_allocated st →
         ∃ r2 st2, Dist.getFullInfo fuel st' e = Some (r2, st2)
                   ∧ r2 ≠ r
                   ∧ objs st2 !! r2 = objs st' !! r
                   ∧ objs st2 !! r = objs st' !! r).
Proof.
  intros C. destruct (queries_terminate st e C) as (fuel & Hi & Hs).
  destruct (Hi st eq_refl) as [[r st'] R].
  exists fuel, r, st'. split; [exact R|].
  destruct (getFullInfo_frame _ _ _ _ _ R) as [Fr G].
  split; [apply G|]. split; [exact Fr|].
  split; [intros x Hx; by apply grows_lookup|].
  split; [exact Hs|].
  split; [apply getFullStack_grows, G|].
  intros W.
  pose proof (getFullInfo_fullInfo fuel st e W) as H1.
  destruct (fullInfo fuel st e) as [m|] eqn:E; [|congruence].
  destruct H1 as (r1 & st1 & R1 & _ & _ & L1).
  rewrite R in R1. injection R1 as <- <-.
  pose proof (getFullInfo_fullInfo fuel st' e (refs_allocated_grows G W)) as H2.
  rewrite (fullInfo_grows st st' fuel e W G), E in H2.
  destruct H2 as (r2 & st2 & R2 & F2 & G2 & L2).
  assert (Hr : r ∈ dom (objs st')) by (apply elem_of_dom; by eexists).
  exists r2, st2. split; [exact R2|].
  split; [by intros ->|].
  split; [by rewrite L1, L2|].
  by apply grows_lookup.
Qed.

Lemma aggregation_queries_frame_witness :
  ∃ fuel r st',
    Dist.getFullInfo fuel cause_precedence_store.2 (EObj cause_precedence_store.1)
    = Some (r, st')
    ∧ errs st' = errs cause_precedence_store.2
    ∧ (r ∉ dom (objs cause_precedence_store.2)).
Proof.
  destruct (aggregation_queries_frame cause_precedence_store.2
              (EObj cause_precedence_store.1))
    as (fuel & r & st' & R & E & F & _).
  - apply chain_step, chain_step, chain_end. reflexivity.
  - by exists fuel, r, st'.
Defined.

(** * Further properties of the code *)

(** ** The tag array, call by call *)

Lemma count_dropped_zero (a : list Tag) :
  count_dropped a = 0 ↔ Forall (fun t => t ≠ DROPPED_TAGS_ERROR) a.
Proof.
  split; [|apply count_dropped_none].
  unfold count_dropped. induction a as [|t a IH]; [constructor|].
  rewrite filter_cons. destruct (decide (t = DROPPED_TAGS_ERROR)); [discriminate|].
  intros H. constructor; [done | by apply IH].
Qed.

Lemma count_dropped_app (a b : list Tag) :
  count_dropped (a ++ b) = count_dropped a + count_dropped b.
Proof. unfold count_dropped. by rewrite filter_app, length_app. Qed.

Lemma count_dropped_cons (t : Tag) (a : list Tag) :
  count_dropped (t :: a)
  = (if decide (t = DROPPED_TAGS_ERROR) then 1 else 0) + count_dropped a.
Proof. unfold count_dropped. rewrite filter_cons. by destruct (decide _). Qed.

Lemma make_tag_not_dropped h message info : make_tag h message info ≠ DROPPED_TAGS_ERROR.
Proof. by destruct h. Qed.

(** What the capacity step does, by the shape of the array. *)
Lemma cap_tags_cases (maxTags : positive) (a : list Tag) :
  (length a < Pos.to_nat maxTags ∧ Dist.cap_tags maxTags a = a)
  ∨ (∃ x rest, a = x :: DROPPED_TAGS_ERROR :: rest
       ∧ Dist.cap_tags maxTags a = x :: DROPPED_TAGS_ERROR :: drop 1 rest)
  ∨ (∃ x, a = [x] ∧ Dist.cap_tags maxTags a = [x; DROPPED_TAGS_ERROR])
  ∨ (∃ x y rest, a = x :: y :: rest ∧ y ≠ DROPPED_TAGS_ERROR
       ∧ Dist.cap_tags maxTags a = x :: DROPPED_TAGS_ERROR :: rest).
Proof.
  unfold Dist.cap_tags. destruct (decide _) as [Hfull|Hroom]; [|left; split; [lia | done]].
  right. destruct a as [|x [|y rest]].
  - simpl in Hfull. lia.
  - right. left. by exists x.
  - destruct (decide (y = DROPPED_TAGS_ERROR)) as [->|N].
    + left. exists x, rest. split; [done|].
      rewrite second_is_dropped_true. unfold splice_2_1. by destruct rest.
    + right. right. exists x, y, rest. split; [done|]. split; [done|].
      replace (second_is_dropped (x :: y :: rest)) with false; [reflexivity|].
      symmetry. apply bool_decide_eq_false. simpl. by intros [= ->].
Qed.

(** X3.  One call of [tag], whatever the array and whatever [maxTags]:
    the array never gets shorter and grows by at most two entries, its
    first entry stays, and the new tag is its last entry. *)
Theorem tag_one_call_shape (maxTags : positive) (st : Store) (l : loc)
    (message info : JsVal) (h : HostTrace) :
  ∃ st' a',
    Dist.tag maxTags st (EObj l) message info h = Returns (EObj l) st'
    ∧ read_tags st' l = Some a'
    ∧ length (default [] (read_tags st l)) ≤ length a'
    ∧ length a' ≤ length (default [] (read_tags st l)) + 2
    ∧ last a' = Some (make_tag h message info)
    ∧ (default [] (read_tags st l) ≠ [] → head a' = head (default [] (read_tags st l))).
Proof.
  eexists _, _. split; [reflexivity|]. split; [apply read_tags_set_tags|].
  set (a := default [] (read_tags st l)). set (t := make_tag h message info).
  clearbody a t.
  unfold Dist.tag_array, push. rewrite length_app, last_snoc.
  change (length [t]) with 1.
  destruct (cap_tags_cases maxTags a)
    as [[_ ->] | [(x & rest & -> & ->) | [(x & -> & ->) | (x & y & rest & -> & _ & ->)]]];
    simpl; rewrite ?length_drop; repeat split; try lia; try done.
  by destruct a.
Qed.

Lemma tag_one_call_shape_witness :
  ∃ st' a',
    Dist.tag 1 (set_tags emptyStore 0 [call_tag (mkCall JUndefined JUndefined (CaptureStackTrace "t0"))])
      (EObj 0) JUndefined JUndefined (CaptureStackTrace "t1") = Returns (EObj 0) st'
    ∧ read_tags st' 0 = Some a'
    ∧ head a' = Some (TaggedError JUndefined JUndefined "t0").
Proof.
  destruct (tag_one_call_shape 1
              (set_tags emptyStore 0 [call_tag (mkCall JUndefined JUndefined (CaptureStackTrace "t0"))])
              0 JUndefined JUndefined (CaptureStackTrace "t1"))
    as (st' & a' & R & T & _ & _ & _ & H).
  exists st', a'. split; [exact R|]. split; [exact T|].
  rewrite H; [reflexivity | discriminate].
Defined.

(** The sentinel stays in place over one call. *)
Lemma tag_array_sentinel_in_place (maxTags : positive) (a : list Tag) (t : Tag) :
  t ≠ DROPPED_TAGS_ERROR → sentinel_in_place a →
  sentinel_in_place (Dist.tag_array maxTags a t).
Proof.
  intros Nt Inv. unfold Dist.tag_array, push, sentinel_in_place.
  assert (Ct : count_dropped [t] = 0) by (apply count_dropped_none; by constructor).
  rewrite count_dropped_app, Ct, Nat.add_0_r.
  destruct (cap_tags_cases maxTags a)
    as [[_ ->] | [(x & rest & -> & ->) | [(x & -> & ->) | (x & y & rest & -> & Ny & ->)]]].
  - destruct Inv as [Z | [O L]]; [by left|]. right. split; [done|].
    rewrite lookup_app_l; [done|]. by apply lookup_lt_Some in L.
  - destruct Inv as [Z | [O _]].
    + rewrite !count_dropped_cons in Z. destruct (decide _); [|done]. simpl in Z. lia.
    + right. split; [|done].
      rewrite !count_dropped_cons in *. destruct (decide (x = _)); [simpl in O; lia|].
      destruct (decide (DROPPED_TAGS_ERROR = _)); [|done]. simpl in *.
      assert (Z : count_dropped rest = 0) by lia.
      f_equal. apply count_dropped_none, Forall_drop. by apply count_dropped_zero.
  - right. split; [|done].
    destruct Inv as [Z | [O L]]; [|discriminate].
    rewrite !count_dropped_cons in *. destruct (decide (x = _)); [simpl in Z; lia|].
    reflexivity.
  - right. split; [|done].
    destruct Inv as [Z | [O L]]; [|simpl in L; congruence].
    rewrite !count_dropped_cons in *.
    destruct (decide (x = _)); [simpl in Z; lia|].
    destruct (decide (y = _)); [done|].
    destruct (decide (DROPPED_TAGS_ERROR = _)); [|done]. simpl in *. lia.
Qed.

(** X4.  Whatever values [maxTags] takes from call to call, the array of
    an error that starts untagged holds the sentinel at most once, and
    then in its second slot; its first entry is the first tag. *)
Theorem sentinel_stays_in_place (calls : list (positive * TagCall)) (st : Store) (l : loc) :
  read_tags st l = None →
  ∃ st', tag_calls_varying st (EObj l) calls = Returns (EObj l) st'
    ∧ sentinel_in_place (default [] (read_tags st' l))
    ∧ head (default [] (read_tags st' l)) = call_tag <$> (snd <$> head calls).
Proof.
  intros Hnone.
  assert (G : ∀ calls st, sentinel_in_place (default [] (read_tags st l)) →
    ∃ st', tag_calls_varying st (EObj l) calls = Returns (EObj l) st'
      ∧ sentinel_in_place (default [] (read_tags st' l))
      ∧ (default [] (read_tags st l) ≠ [] →
           head (default [] (read_tags st' l)) = head (default [] (read_tags st l)))).
  { clear. induction calls as [|[m c] calls IH]; intros st Inv; simpl.
    - by eexists.
    - set (st1 := set_tags st l _).
      destruct (IH st1) as (st' & R & Inv' & Hd).
      + unfold st1. rewrite read_tags_set_tags. simpl.
        apply tag_array_sentinel_in_place; [apply make_tag_not_dropped | done].
      + exists st'. split; [exact R|]. split; [exact Inv'|].
        intros Ne. rewrite Hd.
        * unfold st1. rewrite read_tags_set_tags. simpl.
          unfold Dist.tag_array, push.
          destruct (cap_tags_cases m (default [] (read_tags st l)))
            as [[_ ->] | [(x & rest & -> & ->) | [(x & -> & ->) | (x & y & rest & -> & _ & ->)]]];
            try done.
          destruct (default [] (read_tags st l)); done.
        * unfold st1. rewrite read_tags_set_tags. simpl.
          unfold Dist.tag_array, push. by destruct (Dist.cap_tags _ _). }
  destruct calls as [|[m c] calls]; simpl.
  - eexists. split; [done|]. rewrite Hnone. split; [by left | done].
  - set (st1 := set_tags st l _).
    destruct (G calls st1) as (st' & R & Inv' & Hd).
    + unfold st1. rewrite read_tags_set_tags. simpl.
      apply tag_array_sentinel_in_place; [apply make_tag_not_dropped|].
      rewrite Hnone. by left.
    + exists st'. split; [exact R|]. split; [exact Inv'|].
      rewrite Hd; unfold st1; rewrite read_tags_set_tags, Hnone; simpl.
      * unfold Dist.tag_array, Dist.cap_tags. simpl.
        destruct (decide _); [lia | done].
      * unfold Dist.tag_array, push. by destruct (Dist.cap_tags _ _).
Qed.

Lemma sentinel_stays_in_place_witness :
  ∃ st', tag_calls_varying fresh_error_store (EObj 0)
           (zip [3; 1; 2; 5; 1]%positive (numbered_calls 5)) = Returns (EObj 0) st'
    ∧ sentinel_in_place (default [] (read_tags st' 0)).
Proof.
  destruct (sentinel_stays_in_place (zip [3; 1; 2; 5; 1]%positive (numbered_calls 5))
              fresh_error_store 0) as (st' & R & I & _).
  - reflexivity.
  - by exists st'.
Defined.

(** ** Sequences of calls *)

Lemma readErr_set_tags st l a :
  readErr (set_tags st l a) l
  = {| err_message := err_message (readErr st l); err_name := err_name (readErr st l);
       err_stack := err_stack (readErr st l); err_info := err_info (readErr st l);
       err_cause := err_cause (readErr st l); err_oErrorTags := Some a |}.
Proof. unfold set_tags, readErr at 1, writeErr. simpl. by rewrite lookup_insert_eq. Qed.

Lemma readErr_set_tags_ne st l a l' : l' ≠ l → readErr (set_tags st l a) l' = readErr st l'.
Proof. intros N. unfold set_tags, readErr, writeErr. simpl. by rewrite lookup_insert_ne. Qed.

Lemma read_cause_set_tags st l a l' : read_cause (set_tags st l a) l' = read_cause st l'.
Proof.
  unfold read_cause. destruct (decide (l' = l)) as [->|N].
  - by rewrite readErr_set_tags.
  - by rewrite readErr_set_tags_ne.
Qed.

Lemma read_info_set_tags st l a l' : read_info (set_tags st l a) l' = read_info st l'.
Proof.
  unfold read_info. destruct (decide (l' = l)) as [->|N].
  - by rewrite readErr_set_tags.
  - by rewrite readErr_set_tags_ne.
Qed.

Lemma err_stack_set_tags st l a l' :
  err_stack (readErr (set_tags st l a) l') = err_stack (readErr st l').
Proof.
  destruct (decide (l' = l)) as [->|N].
  - by rewrite readErr_set_tags.
  - by rewrite readErr_set_tags_ne.
Qed.

Lemma set_tags_set_tags st l a b : set_tags (set_tags st l a) l b = set_tags st l b.
Proof.
  unfold set_tags at 1. rewrite readErr_set_tags.
  unfold set_tags, writeErr. simpl. by rewrite insert_insert_eq.
Qed.

(** A run of tagging calls on [l] is one write of [l]'s array. *)
Lemma tag_calls_store (maxTags : positive) (calls : list TagCall) : ∀ st l,
  calls ≠ [] →
  tag_calls maxTags st (EObj l) calls
  = Returns (EObj l)
      (set_tags st l (fold_left (Dist.tag_array maxTags) (map call_tag calls)
                        (default [] (read_tags st l)))).
Proof.
  induction calls as [|c calls IH]; intros st l Ne; [done|]. simpl.
  destruct calls as [|c' calls]; [reflexivity|].
  rewrite IH by done. by rewrite read_tags_set_tags, set_tags_set_tags.
Qed.

Lemma tag_calls_000_spec (calls : list TagCall) : ∀ st l,
  ∃ st', tag_calls_000 st (EObj l) calls = Returns (EObj l) st'
    ∧ default [] (read_tags st' l) = default [] (read_tags st l) ++ map call_tag calls
    ∧ (calls ≠ [] → is_Some (read_tags st' l)).
Proof.
  induction calls as [|c calls IH]; intros st l; simpl.
  - eexists. split; [done|]. by rewrite app_nil_r.
  - destruct (IH (set_tags st l (push (default [] (read_tags st l)) (call_tag c))) l)
      as (st' & R & T & S).
    exists st'. split; [exact R|]. rewrite read_tags_set_tags in T.
    split; [by rewrite T; unfold push; simpl; rewrite <- app_assoc|].
    intros _. destruct calls as [|c' calls]; [|by apply S].
    simpl in R. injection R as <-. rewrite read_tags_set_tags. by eexists.
Qed.

(** X1.  [src/unnamed/part_000]'s [tag] has no cap: after any number of
    calls the array is the array of before followed by one tag per call,
    in call order. *)
Theorem part_000_tag_keeps_every_tag (calls : list TagCall) (st : Store) (l : loc) :
  ∃ st', tag_calls_000 st (EObj l) calls = Returns (EObj l) st'
    ∧ default [] (read_tags st' l) = default [] (read_tags st l) ++ map call_tag calls
    ∧ length (default [] (read_tags st' l))
      = length (default [] (read_tags st l)) + length calls.
Proof.
  destruct (tag_calls_000_spec calls st l) as (st' & R & T & _).
  exists st'. split; [exact R|]. split; [exact T|].
  by rewrite T, length_app, length_map.
Qed.

(** X2.  While a never-tagged error has been tagged at most [maxTags]
    times, its array holds exactly the tags of the calls, in call order,
    and no sentinel: the same array [src/unnamed/part_000]'s [tag] leaves. *)
Theorem tag_within_capacity (maxTags : positive) (calls : list TagCall)
    (st : Store) (l : loc) :
  read_tags st l = None →
  length calls ≤ Pos.to_nat maxTags →
  ∃ st' st000,
    tag_calls maxTags st (EObj l) calls = Returns (EObj l) st'
    ∧ default [] (read_tags st' l) = map call_tag calls
    ∧ count_dropped (default [] (read_tags st' l)) = 0
    ∧ tag_calls_000 st (EObj l) calls = Returns (EObj l) st000
    ∧ read_tags st000 l = read_tags st' l.
Proof.
  intros Hnone Hlen.
  destruct (tag_calls_spec maxTags calls st l) as (st' & R & T & S).
  destruct (tag_calls_000_spec calls st l) as (st0 & R0 & T0 & S0).
  rewrite Hnone in T, T0. simpl in T, T0.
  rewrite (fold_tag_array_capped _ _ (call_tags_not_dropped calls)) in T.
  unfold capped in T. rewrite length_map in T.
  destruct (decide _) as [_|?]; [|lia].
  exists st', st0. split; [exact R|]. split; [exact T|].
  split; [rewrite T; apply count_dropped_none, call_tags_not_dropped|].
  split; [exact R0|].
  destruct calls as [|c calls].
  - simpl in R, R0. by injection R as <-; injection R0 as <-.
  - destruct S as [a Ha]; [done|]. destruct S0 as [a0 Ha0]; [done|].
    rewrite Ha, Ha0 in *. simpl in *. congruence.
Qed.

Lemma tag_within_capacity_witness :
  ∃ st', tag_calls Dist.default_maxTags fresh_error_store (EObj 0) (numbered_calls 100)
         = Returns (EObj 0) st'
    ∧ default [] (read_tags st' 0) = map call_tag (numbered_calls 100).
Proof.
  destruct (tag_within_capacity Dist.default_maxTags (numbered_calls 100) fresh_error_store 0)
    as (st' & _ & R & T & _).
  - reflexivity.
  - vm_compute. lia.
  - exists st'. split; [exact R | exact T].
Defined.

(** X5.  With [maxTags] at its minimum of 1, tagging a never-tagged error
    more than once leaves three entries: the first tag, the sentinel and
    the tag of the last call. *)
Theorem tag_capacity_of_one (calls : list TagCall) (st : Store) (l : loc) :
  read_tags st l = None →
  1 < length calls →
  ∃ st' first newest,
    head calls = Some first ∧ last calls = Some newest
    ∧ tag_calls 1 st (EObj l) calls = Returns (EObj l) st'
    ∧ read_tags st' l = Some [call_tag first; DROPPED_TAGS_ERROR; call_tag newest].
Proof.
  intros Hnone Hlen.
  destruct (tag_calls_spec 1 calls st l) as (st' & R & T & S).
  rewrite Hnone in T. simpl in T.
  rewrite (fold_tag_array_capped _ _ (call_tags_not_dropped calls)) in T.
  unfold capped in T. rewrite length_map in T.
  change (Pos.to_nat 1) with 1 in T.
  destruct (decide _) as [?|_]; [lia|].
  destruct S as [a Ha]; [intros ->; simpl in Hlen; lia|].
  rewrite Ha in T. simpl in T. subst a.
  destruct (last calls) as [newest|] eqn:Hl.
  2: { apply last_None in Hl. subst. simpl in Hlen. lia. }
  apply last_Some in Hl as [pre ->].
  destruct pre as [|first pre]; [simpl in Hlen; lia|].
  exists st', first, newest. split; [done|]. split; [done|]. split; [exact R|].
  rewrite Ha. f_equal.
  change (Nat.max (1 - 1) 1) with 1.
  change ((first :: pre) ++ [newest]) with (first :: (pre ++ [newest])).
  change (take 1 (map call_tag (first :: (pre ++ [newest])))) with [call_tag first].
  replace (length (first :: (pre ++ [newest])) - 1) with (S (length pre))
    by (simpl; rewrite length_app; simpl; lia).
  change (drop (S (length pre)) (map call_tag (first :: (pre ++ [newest]))))
    with (drop (length pre) (map call_tag (pre ++ [newest]))).
  rewrite map_app, drop_app_length'; [done|]. by rewrite length_map.
Qed.

Lemma tag_capacity_of_one_witness :
  ∃ st', tag_calls 1 fresh_error_store (EObj 0) (numbered_calls 4) = Returns (EObj 0) st'
    ∧ length (default [] (read_tags st' 0)) = 3.
Proof.
  destruct (tag_capacity_of_one (numbered_calls 4) fresh_error_store 0)
    as (st' & first & newest & _ & _ & R & T).
  - reflexivity.
  - vm_compute. lia.
  - exists st'. split; [exact R|]. by rewrite T.
Defined.

(** X6.  Once tags have been dropped, the full stack shows it: for a
    never-tagged error without a cause, tagged more often than [maxTags]
    (at least 2), the full stack is the error's stack, the stack of the
    first tag, the line ["TaggedError: ... dropped tags"], and the stacks
    of the [maxTags - 1] most recent tags. *)
Theorem full_stack_shows_dropped_tags (maxTags : positive) (calls : list TagCall)
    (st : Store) (l : loc) (fuel : nat) :
  2 ≤ Pos.to_nat maxTags →
  read_tags st l = None →
  ref_truthy (read_cause st l) = false →
  Pos.to_nat maxTags < length calls →
  ∃ st' first,
    head calls = Some first
    ∧ tag_calls maxTags st (EObj l) calls = Returns (EObj l) st'
    ∧ Dist.getFullStack fuel st' (EObj l)
      = Some (stack_or_placeholder (err_stack (readErr st l))
              +:+ nl +:+ tag_stack (call_tag first)
              +:+ nl +:+ "TaggedError: ... dropped tags"
              +:+ on_new_lines
                    (map tag_stack
                       (map call_tag
                          (drop (length calls - (Pos.to_nat maxTags - 1)) calls)))).
Proof.
  intros Hmax Hnone Hc Hlen.
  destruct calls as [|first calls]; [simpl in Hlen; lia|].
  rewrite tag_calls_store by done.
  eexists _, first. split; [done|]. split; [reflexivity|].
  rewrite getFullStack_no_cause by (by rewrite read_cause_set_tags).
  rewrite err_stack_set_tags, read_tags_set_tags, Hnone.
  change (default [] None) with (@nil Tag).
  rewrite (fold_tag_array_capped _ _ (call_tags_not_dropped (first :: calls))).
  unfold capped. rewrite length_map.
  destruct (decide _) as [?|_]; [lia|].
  replace (Nat.max (Pos.to_nat maxTags - 1) 1) with (Pos.to_nat maxTags - 1) by lia.
  rewrite skipn_map. reflexivity.
Qed.

Lemma full_stack_shows_dropped_tags_witness :
  ∃ st', tag_calls 3 fresh_error_store (EObj 0) (numbered_calls 5) = Returns (EObj 0) st'
    ∧ Dist.getFullStack 0 st' (EObj 0)
      = Some ("Error: test error"
              +:+ nl +:+ "TaggedError: test message 0"
              +:+ nl +:+ "TaggedError: ... dropped tags"
              +:+ nl +:+ "TaggedError: test message 3"
              +:+ nl +:+ "TaggedError: test message 4").
Proof.
  destruct (full_stack_shows_dropped_tags 3 (numbered_calls 5) fresh_error_store 0 0)
    as (st' & first & Hf & R & S).
  - vm_compute. lia.
  - reflexivity.
  - reflexivity.
  - vm_compute. lia.
  - exists st'. split; [exact R|]. rewrite S.
    vm_compute in Hf. injection Hf as <-. vm_compute. reflexivity.
Defined.

(** ** Cause chains *)

Lemma chain_ends_acyclic st e :
  cause_chain_ends st e → ∀ l, on_chain st e l → ¬ on_chain st (read_cause st l) l.
Proof.
  induction 1 as [e F | l0 _ IH]; intros l Hl.
  - inversion Hl; subst; discriminate.
  - inversion Hl as [l1 | l1 l2 Hc]; subst.
    + intros H. exact (IH l H H).
    + by apply IH.
Qed.

(** On a finite chain an error is not on the chain of its own cause. *)
Lemma chain_below_misses st l l' :
  cause_chain_ends st (EObj l) → on_chain st (read_cause st l) l' → l' ≠ l.
Proof.
  intros C H ->. exact (chain_ends_acyclic st (EObj l) C l (on_chain_here st l) H).
Qed.

(** The queries read the error objects on the cause chain and no others. *)
Lemma getFullStack_agree st st' fuel : ∀ e,
  (∀ l, on_chain st e l → readErr st' l = readErr st l) →
  Dist.getFullStack fuel st' e = Dist.getFullStack fuel st e.
Proof.
  induction fuel as [|fuel IH]; intros [| |l] A; simpl; try done;
    unfold read_tags, read_cause; rewrite (A l (on_chain_here st l)); [done|].
  fold (read_cause st l). rewrite IH; [done|].
  intros l' H. apply A. by apply on_chain_cause.
Qed.

Lemma info_sources_agree st st' l :
  objs st' = objs st → readErr st' l = readErr st l →
  info_sources st' l = info_sources st l.
Proof.
  intros O E. unfold info_sources, read_info, read_tags. rewrite E.
  assert (Ho : ∀ v, own_enumerable st' v = own_enumerable st v).
  { intros []; simpl; try done. unfold readObj. by rewrite O. }
  rewrite Ho. f_equal. apply map_ext. intros t. apply Ho.
Qed.

Lemma fullInfo_agree st st' fuel : ∀ e,
  objs st' = objs st →
  (∀ l, on_chain st e l → readErr st' l = readErr st l) →
  fullInfo fuel st' e = fullInfo fuel st e.
Proof.
  induction fuel as [|fuel IH]; intros [| |l] O A; simpl; try done;
    rewrite (info_sources_agree st st' l O (A l (on_chain_here st l)));
    unfold read_cause; rewrite (A l (on_chain_here st l)); [done|].
  fold (read_cause st l). rewrite IH; [done | done |].
  intros l' H. apply A. by apply on_chain_cause.
Qed.

Lemma result_props_fullInfo fuel st e :
  refs_allocated st → result_props (Dist.getFullInfo fuel st e) = fullInfo fuel st e.
Proof.
  intros W. pose proof (getFullInfo_fullInfo fuel st e W) as H.
  destruct (fullInfo fuel st e) as [m|].
  - destruct H as (r & st' & -> & _ & _ & L). exact L.
  - by rewrite H.
Qed.

Lemma refs_allocated_writeErr st l o :
  refs_allocated st → err_allocated st o → refs_allocated (writeErr st l o).
Proof.
  intros W A l' o' E. unfold writeErr in E. simpl in E.
  assert (H : ∀ o'', err_allocated st o'' → err_allocated (writeErr st l o) o'') by done.
  destruct (decide (l' = l)) as [->|N].
  - rewrite lookup_insert_eq in E. injection E as <-. by apply H.
  - rewrite lookup_insert_ne in E by done. apply H. exact (W l' o' E).
Qed.

Lemma refs_allocated_set_tags st l a :
  refs_allocated st → Forall (fun t => val_allocated st (tag_info t)) a →
  refs_allocated (set_tags st l a).
Proof.
  intros W A. apply refs_allocated_writeErr; [done|].
  split; simpl; [|done]. apply (refs_allocated_readErr st l W).
Qed.

(** The properties a tag contributes are those of the [info] passed,
    on either kind of host. *)
Lemma make_tag_own_enumerable st h message info :
  own_enumerable st (tag_info (make_tag h message info)) = own_enumerable st info.
Proof.
  destruct h; simpl; [done|].
  destruct info as [| |[]|z| |s|x]; simpl; try done.
  - by destruct (z =? 0)%Z.
  - destruct (String.eqb_spec s ""); simpl; [by subst | done].
Qed.

Lemma make_tag_allocated st h message info :
  val_allocated st info → val_allocated st (tag_info (make_tag h message info)).
Proof.
  intros A. destruct h; simpl; [done|]. by destruct (truthy info).
Qed.

Lemma cap_tags_below (maxTags : positive) (a : list Tag) :
  length a < Pos.to_nat maxTags → Dist.cap_tags maxTags a = a.
Proof. intros H. unfold Dist.cap_tags. destruct (decide _); [lia | done]. Qed.

Lemma on_new_lines_snoc (ls : list string) (x : string) :
  on_new_lines (ls ++ [x]) = on_new_lines ls +:+ nl +:+ x.
Proof.
  induction ls as [|y ls IH]; simpl.
  - by rewrite string_app_nil_r.
  - by rewrite IH, !string_app_assoc.
Qed.

(** ** Tagging, then asking *)

(** X7.  Tagging with [info], below capacity, makes the full info the one
    of before with the properties of [info] written over it (last write
    wins), on a host with [Error.captureStackTrace] and on one without. *)
Theorem tag_info_overrides (maxTags : positive) (st : Store) (l : loc)
    (message info : JsVal) (h : HostTrace) :
  refs_allocated st → val_allocated st info →
  cause_chain_ends st (EObj l) →
  length (default [] (read_tags st l)) < Pos.to_nat maxTags →
  ∃ st' before,
    Dist.tag maxTags st (EObj l) message info h = Returns (EObj l) st'
    ∧ returns_info st (EObj l) before
    ∧ returns_info st' (EObj l) (assign_props before (own_enumerable st info)).
Proof.
  intros W Ai C Hlen.
  set (t := make_tag h message info).
  set (st' := set_tags st l (Dist.tag_array maxTags (default [] (read_tags st l)) t)).
  assert (Ht : read_tags st' l = Some (default [] (read_tags st l) ++ [t])).
  { unfold st'. rewrite read_tags_set_tags. unfold Dist.tag_array, push.
    by rewrite cap_tags_below. }
  assert (W' : refs_allocated st').
  { apply refs_allocated_set_tags; [done|]. unfold Dist.tag_array, push.
    rewrite cap_tags_below by done. apply Forall_app. split.
    - apply (refs_allocated_tags st l W).
    - constructor; [by apply make_tag_allocated | constructor]. }
  assert (Hs : info_sources st' l = info_sources st l ++ [own_enumerable st info]).
  { unfold info_sources. rewrite Ht.
    replace (read_info st' l) with (read_info st l)
      by (unfold st'; by rewrite read_info_set_tags).
    change (default [] (Some ?x)) with x.
    rewrite map_app, app_assoc. simpl map. subst t.
    rewrite (make_tag_own_enumerable st'). reflexivity. }
  assert (Hm : ∀ base, merge_in_order base (info_sources st' l)
                 = assign_props (merge_in_order base (info_sources st l))
                     (own_enumerable st info)).
  { intros base. rewrite Hs. unfold merge_in_order. by rewrite fold_left_app. }
  inversion C as [e F | l' C']; subst; [discriminate|].
  destruct (ref_truthy (read_cause st l)) eqn:T.
  - destruct (chain_fullInfo _ _ C') as (fuel & mc & E).
    exists st', (merge_in_order mc (info_sources st l)).
    split; [reflexivity|]. split.
    + apply (returns_info_fullInfo st (EObj l) (S fuel)); [done|].
      simpl. by rewrite T, E.
    + apply (returns_info_fullInfo st' (EObj l) (S fuel)); [done|].
      simpl.
      replace (read_cause st' l) with (read_cause st l)
        by (unfold st'; by rewrite read_cause_set_tags).
      rewrite T, (fullInfo_agree st st' fuel), E; [by rewrite Hm | done |].
      intros l' H. apply readErr_set_tags_ne. by apply (chain_below_misses st l l' C).
  - exists st', (merge_in_order ∅ (info_sources st l)).
    split; [reflexivity|]. split.
    + apply (returns_info_fullInfo st (EObj l) 0); [done|]. simpl. by rewrite T.
    + apply (returns_info_fullInfo st' (EObj l) 0); [done|].
      simpl.
      replace (read_cause st' l) with (read_cause st l)
        by (unfold st'; by rewrite read_cause_set_tags).
      by rewrite T, Hm.
Qed.

Lemma tag_info_overrides_witness :
  ∃ st' before,
    Dist.tag 100 info_object_store (EObj 0) (JStr "m") (JObject 0)
      (NoCaptureStackTrace "TaggedError: m") = Returns (EObj 0) st'
    ∧ returns_info info_object_store (EObj 0) before
    ∧ returns_info st' (EObj 0)
        (assign_props before (own_enumerable info_object_store (JObject 0))).
Proof.
  apply (tag_info_overrides 100 info_object_store 0 (JStr "m") (JObject 0)
           (NoCaptureStackTrace "TaggedError: m")).
  - apply (bool_decide_unpack _). vm_compute. exact I.
  - apply (bool_decide_unpack _). vm_compute. exact I.
  - apply chain_step, chain_end. reflexivity.
  - vm_compute. lia.
Defined.

(** X8.  Tagging, below capacity, puts the stack of the new tag on a line
    of its own after the stacks of the earlier tags and before the
    ["caused by:"] part, which stays as it was. *)
Theorem tag_adds_stack_line (maxTags : positive) (st : Store) (l : loc)
    (message info : JsVal) (h : HostTrace) :
  cause_chain_ends st (EObj l) →
  length (default [] (read_tags st l)) < Pos.to_nat maxTags →
  ∃ st' fromCause,
    Dist.tag maxTags st (EObj l) message info h = Returns (EObj l) st'
    ∧ returns_stack st (EObj l) (own_stack_lines st l +:+ fromCause)
    ∧ returns_stack st' (EObj l)
        (own_stack_lines st l +:+ nl +:+ tag_stack (make_tag h message info)
         +:+ fromCause).
Proof.
  intros C Hlen.
  set (t := make_tag h message info).
  set (st' := set_tags st l (Dist.tag_array maxTags (default [] (read_tags st l)) t)).
  assert (Ho : own_stack_lines st' l = own_stack_lines st l +:+ nl +:+ tag_stack t).
  { unfold own_stack_lines, st'. rewrite err_stack_set_tags, read_tags_set_tags.
    unfold Dist.tag_array, push. rewrite cap_tags_below by done.
    simpl default. rewrite map_app. simpl map.
    by rewrite on_new_lines_snoc, !string_app_assoc. }
  inversion C as [e F | l' C']; subst; [discriminate|].
  destruct (read_cause st l) as [| |lc] eqn:Hc.
  - exists st', "". split; [reflexivity|]. split; exists 0.
    + rewrite getFullStack_no_cause by (by rewrite Hc). by rewrite string_app_nil_r.
    + rewrite getFullStack_no_cause by (unfold st'; by rewrite read_cause_set_tags, Hc).
      fold (own_stack_lines st' l). by rewrite Ho, string_app_nil_r.
  - exists st', "". split; [reflexivity|]. split; exists 0.
    + rewrite getFullStack_no_cause by (by rewrite Hc). by rewrite string_app_nil_r.
    + rewrite getFullStack_no_cause by (unfold st'; by rewrite read_cause_set_tags, Hc).
      fold (own_stack_lines st' l). by rewrite Ho, string_app_nil_r.
  - destruct (getFullStack_terminates _ _ C') as (fuel & cs & R).
    exists st', (nl +:+ "caused by:" +:+ nl +:+ indent cs).
    split; [reflexivity|]. split; exists (S fuel).
    + rewrite (getFullStack_cause fuel st l lc cs Hc R).
      unfold own_stack_lines. by rewrite !string_app_assoc.
    + rewrite (getFullStack_cause fuel st' l lc cs).
      * rewrite <- string_app_assoc. fold (own_stack_lines st' l).
        rewrite Ho. by rewrite !string_app_assoc.
      * unfold st'. by rewrite read_cause_set_tags.
      * rewrite <- R. apply getFullStack_agree.
        intros l' H. apply readErr_set_tags_ne.
        apply (chain_below_misses st l l' C). by rewrite Hc.
Qed.

Lemma tag_adds_stack_line_witness :
  ∃ st' fromCause,
    Dist.tag 100 cause_precedence_store.2 (EObj cause_precedence_store.1)
      JUndefined JUndefined (CaptureStackTrace "TaggedError") =
    Returns (EObj cause_precedence_store.1) st'
    ∧ returns_stack cause_precedence_store.2 (EObj cause_precedence_store.1)
        (own_stack_lines cause_precedence_store.2 cause_precedence_store.1 +:+ fromCause)
    ∧ returns_stack st' (EObj cause_precedence_store.1)
        (own_stack_lines cause_precedence_store.2 cause_precedence_store.1
         +:+ nl +:+ "TaggedError" +:+ fromCause).
Proof.
  apply (tag_adds_stack_line 100 cause_precedence_store.2 cause_precedence_store.1
           JUndefined JUndefined (CaptureStackTrace "TaggedError")).
  - apply chain_step, chain_step, chain_end. reflexivity.
  - vm_compute. lia.
Defined.

(** ** Cycles *)

Lemma readErr_writeErr st l o : readErr (writeErr st l o) l = o.
Proof. unfold readErr, writeErr. simpl. by rewrite lookup_insert_eq. Qed.

Lemma readErr_writeErr_ne st l o l' : l' ≠ l → readErr (writeErr st l o) l' = readErr st l'.
Proof. intros N. unfold readErr, writeErr. simpl. by rewrite lookup_insert_ne. Qed.

Lemma read_cause_withCause st l c : read_cause (withCause st l c).2 l = c.
Proof. unfold read_cause, withCause. simpl. by rewrite readErr_writeErr. Qed.

Lemma read_cause_withCause_ne st l c l' :
  l' ≠ l → read_cause (withCause st l c).2 l' = read_cause st l'.
Proof. intros N. unfold read_cause, withCause. simpl. by rewrite readErr_writeErr_ne. Qed.

(** X10.  [withCause] does not look for cycles, and the queries have no
    guard against them: an error that is on the cause chain of its own
    cause makes [getFullInfo] and [getFullStack] exceed every depth.
    Making any error its own cause, or two errors the cause of each
    other, gives such a chain. *)
Theorem cause_cycle_diverges :
  (∀ st l, on_chain st (read_cause st l) l →
     ∀ fuel, Dist.getFullInfo fuel st (EObj l) = None
             ∧ Dist.getFullStack fuel st (EObj l) = None)
  ∧ (∀ st l fuel,
       Dist.getFullInfo fuel (withCause st l (EObj l)).2 (EObj l) = None
       ∧ Dist.getFullStack fuel (withCause st l (EObj l)).2 (EObj l) = None)
  ∧ (∀ st a b fuel, a ≠ b →
       Dist.getFullInfo fuel (withCause (withCause st a (EObj b)).2 b (EObj a)).2 (EObj a)
       = None
       ∧ Dist.getFullStack fuel (withCause (withCause st a (EObj b)).2 b (EObj a)).2 (EObj a)
         = None).
Proof.
  assert (G : ∀ st l, on_chain st (read_cause st l) l →
     ∀ fuel, Dist.getFullInfo fuel st (EObj l) = None
             ∧ Dist.getFullStack fuel st (EObj l) = None).
  { intros st l H fuel.
    assert (N : ¬ cause_chain_ends st (EObj l)).
    { intros C. exact (chain_ends_acyclic st (EObj l) C l (on_chain_here st l) H). }
    split.
    - destruct (Dist.getFullInfo fuel st (EObj l)) eqn:R; [|done].
      destruct N. apply (getFullInfo_returns_chain fuel). by rewrite R.
    - destruct (Dist.getFullStack fuel st (EObj l)) eqn:R; [|done].
      destruct N. apply (getFullStack_returns_chain fuel). by rewrite R. }
  split; [exact G|]. split.
  - intros st l fuel. apply G. rewrite read_cause_withCause. apply on_chain_here.
  - intros st a b fuel N. apply G.
    rewrite read_cause_withCause_ne, read_cause_withCause by done.
    apply on_chain_cause. rewrite read_cause_withCause. apply on_chain_here.
Qed.

Lemma cause_cycle_diverges_witness :
  Dist.getFullStack 7 (withCause (withCause two_errors_store 0 (EObj 1)).2 1 (EObj 0)).2
    (EObj 0) = None.
Proof.
  apply (proj2 (proj2 cause_cycle_diverges) two_errors_store 0 1 7). discriminate.
Defined.

(** ** Errors that share nothing *)

(** X19.  Tagging an error changes the full stack and the full info of
    no error whose cause chain does not pass through it. *)
Theorem tag_leaves_unrelated_errors (maxTags : positive) (st : Store) (l : loc)
    (message info : JsVal) (h : HostTrace) (e : ErrRef) :
  ¬ on_chain st e l →
  ∃ st',
    Dist.tag maxTags st (EObj l) message info h = Returns (EObj l) st'
    ∧ (∀ fuel, Dist.getFullStack fuel st' e = Dist.getFullStack fuel st e)
    ∧ (refs_allocated st → val_allocated st info →
       ∀ fuel, result_props (Dist.getFullInfo fuel st' e)
               = result_props (Dist.getFullInfo fuel st e)).
Proof.
  intros N. eexists. split; [reflexivity|].
  set (st' := set_tags st l _).
  assert (A : ∀ l', on_chain st e l' → readErr st' l' = readErr st l').
  { intros l' H. apply readErr_set_tags_ne. by intros ->. }
  split; [intros fuel; by apply getFullStack_agree|].
  intros W Ai fuel.
  assert (W' : refs_allocated st').
  { apply refs_allocated_set_tags; [done|]. unfold Dist.tag_array, push.
    apply Forall_app. split.
    - pose proof (refs_allocated_tags st l W) as F.
      destruct (cap_tags_cases maxTags (default [] (read_tags st l)))
        as [[_ ->] | [(x & rest & E & ->) | [(x & E & ->) | (x & y & rest & E & _ & ->)]]];
        [done | rewrite E in F | rewrite E in F | rewrite E in F].
      + inversion F as [|? ? Fx F']; subst. inversion F' as [|? ? Fd Fr]; subst.
        repeat constructor; try done. by apply Forall_drop.
      + inversion F; subst. by repeat constructor.
      + inversion F as [|? ? Fx F']; subst. inversion F' as [|? ? Fy Fr]; subst.
        by repeat constructor.
    - constructor; [by apply make_tag_allocated | constructor]. }
  rewrite !result_props_fullInfo by done. by apply fullInfo_agree.
Qed.

Lemma tag_leaves_unrelated_errors_witness :
  ∃ st', Dist.tag 100 two_errors_store (EObj 0) JUndefined JUndefined
           (CaptureStackTrace "TaggedError") = Returns (EObj 0) st'
    ∧ ∀ fuel, Dist.getFullStack fuel st' (EObj 1)
              = Dist.getFullStack fuel two_errors_store (EObj 1).
Proof.
  destruct (tag_leaves_unrelated_errors 100 two_errors_store 0 JUndefined JUndefined
              (CaptureStackTrace "TaggedError") (EObj 1)) as (st' & R & S & _).
  - intros H. inversion H as [|? ? H']; subst. inversion H'.
  - by exists st'.
Defined.

(** ** Wrapping a cause *)

(** X11.  Constructing an error around a cause whose chain lies in the
    store leaves the cause's full stack as it was, and gives the new
    error the full stack: its own stack (or the placeholder), the line
    ["caused by:"], and the cause's full stack, indented. *)
Theorem wrapping_a_cause (cls : string) (st : Store) (message : string)
    (info : JsVal) (c : loc) (hostStack : option string)
    (fuel : nat) (causeStack : string) :
  (∀ l, on_chain st (EObj c) l → l ∈ dom (errs st)) →
  Dist.getFullStack fuel st (EObj c) = Some causeStack →
  Dist.getFullStack fuel (OError cls st message info (EObj c) hostStack).2 (EObj c)
  = Some causeStack
  ∧ Dist.getFullStack (S fuel) (OError cls st message info (EObj c) hostStack).2
      (EObj (OError cls st message info (EObj c) hostStack).1)
    = Some (stack_or_placeholder hostStack
            +:+ nl +:+ "caused by:" +:+ nl +:+ indent causeStack).
Proof.
  intros D R.
  set (this := (OError cls st message info (EObj c) hostStack).1).
  set (st' := (OError cls st message info (EObj c) hostStack).2).
  assert (Rc : Dist.getFullStack fuel st' (EObj c) = Some causeStack).
  { rewrite <- R. apply getFullStack_agree. intros l H.
    apply readErr_writeErr_ne. intros ->.
    apply D in H. by apply (is_fresh (dom (errs st))). }
  split; [exact Rc|].
  rewrite (getFullStack_cause fuel st' this c causeStack); [| |exact Rc].
  - unfold read_tags. unfold st', this. by rewrite readErr_OError.
  - unfold read_cause. unfold st', this. by rewrite readErr_OError.
Qed.

Lemma wrapping_a_cause_witness :
  Dist.getFullStack 1 (OError "OError" fresh_error_store "outer" JUndefined (EObj 0)
                         (Some "Error: outer")).2
    (EObj (OError "OError" fresh_error_store "outer" JUndefined (EObj 0)
             (Some "Error: outer")).1)
  = Some ("Error: outer" +:+ nl +:+ "caused by:" +:+ nl +:+ indent "Error: test error").
Proof.
  apply (wrapping_a_cause "OError" fresh_error_store "outer" JUndefined 0
           (Some "Error: outer") 0 "Error: test error").
  - intros l H. inversion H as [|? ? H']; subst.
    + apply elem_of_dom. by eexists.
    + inversion H'.
  - reflexivity.
Defined.

(** X12.  Wrapping and merged info: the new error's full info is the
    cause's full info with the properties of the new error's own [info]
    object written over it; an [info] argument that is not an object adds
    nothing. *)
Theorem wrapping_merges_info (cls : string) (st : Store) (message : string)
    (info : JsVal) (c : loc) (hostStack : option string) (fromCause : Props) :
  refs_allocated st → val_allocated st info →
  (∀ l, on_chain st (EObj c) l → l ∈ dom (errs st)) →
  returns_info st (EObj c) fromCause →
  returns_info (OError cls st message info (EObj c) hostStack).2
    (EObj (OError cls st message info (EObj c) hostStack).1)
    (match info with
     | JObject x => assign_props fromCause (readObj st x)
     | _ => fromCause
     end).
Proof.
  intros W Ai D (fuel & r & st1 & R & L).
  set (this := (OError cls st message info (EObj c) hostStack).1).
  set (st' := (OError cls st message info (EObj c) hostStack).2).
  assert (E : readErr st' this
    = {| err_message := message; err_name := cls; err_stack := hostStack;
         err_info := if truthy info then Some info else None;
         err_cause := Some (EObj c); err_oErrorTags := None |})
    by apply readErr_OError.
  assert (W' : refs_allocated st').
  { apply refs_allocated_writeErr; [done|]. split; simpl; [|constructor].
    by destruct (truthy info). }
  assert (Ec : fullInfo fuel st (EObj c) = Some fromCause).
  { rewrite <- (result_props_fullInfo fuel st (EObj c) W), R. exact L. }
  apply (returns_info_fullInfo st' (EObj this) (S fuel) _ W').
  simpl. unfold read_cause. rewrite E. simpl.
  rewrite (fullInfo_agree st st' fuel), Ec; [f_equal | done |].
  - unfold info_sources, read_info, read_tags. rewrite E. simpl.
    destruct info as [| |[]|z| |s|x]; simpl; try done.
    + by destruct (z =? 0)%Z.
    + by destruct (negb _).
  - intros l H. apply readErr_writeErr_ne. intros ->.
    apply D in H. by apply (is_fresh (dom (errs st))).
Qed.

Lemma wrapping_merges_info_witness :
  returns_info
    (OError "OError" cause_precedence_store.2 "outer" (JObject 0)
       (EObj cause_precedence_store.1) None).2
    (EObj (OError "OError" cause_precedence_store.2 "outer" (JObject 0)
             (EObj cause_precedence_store.1) None).1)
    (assign_props {[ "x" := JNum 2 ]} (readObj cause_precedence_store.2 0)).
Proof.
  apply (wrapping_merges_info "OError" cause_precedence_store.2 "outer" (JObject 0)
           cause_precedence_store.1 None {[ "x" := JNum 2 ]}).
  - apply (bool_decide_unpack _). vm_compute. exact I.
  - apply (bool_decide_unpack _). vm_compute. exact I.
  - intros l H. inversion H as [|? ? H']; subst.
    + apply elem_of_dom. by eexists.
    + inversion H' as [|? ? H'']; subst.
      * apply elem_of_dom. by eexists.
      * inversion H''.
  - exists 1. eexists _, _. split; [vm_compute; reflexivity|]. vm_compute. reflexivity.
Defined.

(** ** [indent], line by line *)

Lemma indent_tail_lf_cr (c : ascii) (s : string) :
  is_lf_cr c = true → indent_tail (String c s) = String c (indent_unit +:+ indent_tail s).
Proof. intros H. cbn [indent_tail]. by rewrite H. Qed.

Lemma indent_tail_ls_ps (c c1 c2 : ascii) (s : string) :
  is_lf_cr c = false → is_ls_ps c c1 c2 = true →
  indent_tail (String c (String c1 (String c2 s)))
  = String c (String c1 (String c2 (indent_unit +:+ indent_tail s))).
Proof. intros H1 H2. cbn [indent_tail]. by rewrite H1, H2. Qed.

(** A newline splits the work of [indent_tail], whatever comes before it. *)
Lemma indent_tail_newline (a b : string) :
  indent_tail (a +:+ nl +:+ b)
  = indent_tail a +:+ nl +:+ indent_unit +:+ indent_tail b.
Proof.
  remember (String.length a) as n eqn:Hn. revert a Hn.
  induction n as [n IH] using lt_wf_ind. intros a Hn.
  destruct a as [|c a]; [reflexivity|].
  rewrite string_app_cons.
  destruct (is_lf_cr c) eqn:Hc.
  - rewrite !indent_tail_lf_cr by done.
    rewrite (IH (String.length a)) by (simpl in Hn; lia || done).
    by rewrite !string_app_cons, !string_app_assoc.
  - destruct a as [|c1 [|c2 a2]].
    + rewrite string_app_nil_l.
      rewrite (indent_tail_step c (nl +:+ b)), (indent_tail_step c "");
        [reflexivity | done | done | done |].
      destruct b as [|c2 b]; [reflexivity|]. exact (is_ls_ps_lf_second c c2).
    + rewrite indent_tail_step; [|done | exact (is_ls_ps_lf_third c c1)].
      rewrite (IH 1) by (simpl in Hn; lia || done).
      by rewrite (indent_tail_step c (String c1 "")).
    + rewrite !string_app_cons.
      destruct (is_ls_ps c c1 c2) eqn:Hl.
      * rewrite !indent_tail_ls_ps by done.
        rewrite (IH (String.length a2)) by (simpl in Hn; lia || done).
        by rewrite !string_app_cons, !string_app_assoc.
      * rewrite (indent_tail_step c (String c1 (String c2 (a2 +:+ nl +:+ b))) Hc Hl).
        rewrite (indent_tail_step c (String c1 (String c2 a2)) Hc Hl).
        change (String c1 (String c2 (a2 +:+ nl +:+ b)))
          with (String c1 (String c2 a2) +:+ nl +:+ b).
        by rewrite (IH (String.length (String c1 (String c2 a2))))
          by (simpl in Hn |- *; lia || done).
Qed.

(** X14.  [indent] works on each newline-separated piece on its own,
    whatever the pieces contain: indenting a text is indenting its
    pieces and joining them with newlines again. *)
Theorem indent_piecewise (lines : list string) :
  lines ≠ [] →
  indent (String.concat nl lines) = String.concat nl (map indent lines).
Proof.
  induction lines as [|x lines IH]; [done|]. intros _.
  destruct lines as [|y lines]; [reflexivity|].
  change (String.concat nl (x :: y :: lines))
    with (x +:+ nl +:+ String.concat nl (y :: lines)).
  change (String.concat nl (map indent (x :: y :: lines)))
    with (indent x +:+ nl +:+ String.concat nl (map indent (y :: lines))).
  rewrite <- IH by done. unfold indent.
  by rewrite indent_tail_newline, !string_app_assoc.
Qed.

Lemma indent_piecewise_witness :
  indent (String.concat nl ["Error: c"; "    at g" +:+ String "013" ""])
  = String.concat nl (map indent ["Error: c"; "    at g" +:+ String "013" ""]).
Proof. apply indent_piecewise. discriminate. Defined.

Lemma has_terminator_space (s : string) :
  has_terminator (String " " s) = has_terminator s.
Proof. by destruct s as [|c1 [|c2 s]]. Qed.

Lemma has_terminator_indent_unit (line : string) :
  has_terminator (indent_unit +:+ line) = has_terminator line.
Proof.
  change (indent_unit +:+ line)
    with (String " " (String " " (String " " (String " " line)))).
  by rewrite !has_terminator_space.
Qed.

Lemma iter_unit_no_terminator (d : nat) (line : string) :
  has_terminator line = false →
  has_terminator (Nat.iter d (String.append indent_unit) line) = false.
Proof.
  intros H. induction d as [|d IH]; [done|]. simpl Nat.iter.
  by rewrite has_terminator_indent_unit.
Qed.

(** X13.  A cause [d] levels down is indented [d] times: for lines
    without a line terminator inside, indenting [d] times puts [d] units
    of four spaces in front of every line. *)
Theorem indent_nested (d : nat) (lines : list string) :
  lines ≠ [] →
  Forall (fun line => has_terminator line = false) lines →
  Nat.iter d indent (String.concat nl lines)
  = String.concat nl (map (Nat.iter d (String.append indent_unit)) lines).
Proof.
  intros Ne F. induction d as [|d IH].
  - simpl. by rewrite map_id.
  - simpl Nat.iter. rewrite IH.
    rewrite indent_lines.
    + by rewrite map_map.
    + by destruct lines.
    + apply Forall_map. eapply Forall_impl; [exact F|].
      intros line H. by apply iter_unit_no_terminator.
Qed.

Lemma indent_nested_witness :
  indent (indent (String.concat nl ["Error: c"; "    at g"]))
  = String.concat nl ["        Error: c"; "            at g"].
Proof.
  apply (indent_nested 2 ["Error: c"; "    at g"]); [discriminate|].
  repeat constructor.
Defined.

(** ** Own info and tag info *)




(** ** The sources against each other *)

Lemma info_sources_withCause st l c :
  info_sources (withCause st l c).2 l = info_sources st l.
Proof.
  unfold info_sources, read_info, read_tags, withCause. simpl.
  rewrite readErr_writeErr. reflexivity.
Qed.

(** X15.  [src/unnamed/part_000]'s [getFullInfo] never looks at the
    cause: it returns a new object with the merge of the error's own
    [info] and its tags' [info], which setting any cause leaves the same.
    Where the error has no cause it is the very run of
    [src/dist/index.js]'s [getFullInfo]. *)
Theorem part_000_full_info_ignores_cause (st : Store) (l : loc) :
  refs_allocated st →
  (∃ r st', Part000.getFullInfo st (EObj l) = (r, st')
     ∧ (r ∉ dom (objs st)) ∧ grows st st'
     ∧ objs st' !! r = Some (merge_in_order ∅ (info_sources st l)))
  ∧ (∀ c, result_props (Some (Part000.getFullInfo (withCause st l c).2 (EObj l)))
          = result_props (Some (Part000.getFullInfo st (EObj l))))
  ∧ (ref_truthy (read_cause st l) = false →
       ∀ fuel, Dist.getFullInfo fuel st (EObj l) = Some (Part000.getFullInfo st (EObj l))).
Proof.
  intros W.
  assert (G : ∀ st0, refs_allocated st0 →
    ∃ r st', Part000.getFullInfo st0 (EObj l) = (r, st')
     ∧ (r ∉ dom (objs st0)) ∧ grows st0 st'
     ∧ objs st' !! r = Some (merge_in_order ∅ (info_sources st0 l))).
  { intros st0 W0. eexists _, _. split; [reflexivity|]. split; [apply alloc_fresh|].
    apply assign_info_and_tags_spec; auto with store. }
  split; [by apply G|]. split.
  - intros c.
    assert (Wc : refs_allocated (withCause st l c).2).
    { apply refs_allocated_writeErr; [done|]. apply (refs_allocated_readErr st l W). }
    destruct (G st W) as (r & st' & -> & _ & _ & L).
    destruct (G _ Wc) as (rc & stc & -> & _ & _ & Lc).
    simpl. by rewrite L, Lc, info_sources_withCause.
  - intros Hc fuel.
    destruct fuel; simpl;
      change (read_cause _ l) with (read_cause st l); by rewrite Hc.
Qed.

Lemma part_000_full_info_ignores_cause_witness :
  result_props (Some (Part000.getFullInfo cause_precedence_store.2
                        (EObj cause_precedence_store.1)))
  = Some (merge_in_order ∅ (info_sources cause_precedence_store.2 cause_precedence_store.1)).
Proof.
  destruct (part_000_full_info_ignores_cause cause_precedence_store.2
              cause_precedence_store.1) as [(r & st' & R & _ & _ & L) _].
  - apply (bool_decide_unpack _). vm_compute. exact I.
  - rewrite R. exact L.
Defined.

(** X16.  [tagIfExists] never throws and always returns the reference
    it was given: for [null] and [undefined] with the store untouched,
    for an error object with exactly one tag more on that object.  [tag]
    on the same arguments throws for [null] and [undefined]. *)
Theorem tagIfExists_total (st : Store) (error : ErrRef) (message info : JsVal)
    (h : HostTrace) :
  ∃ st',
    Part000.tagIfExists st error message info h = Returns error st'
    ∧ match error with
      | EObj l =>
          read_tags st' l
          = Some (default [] (read_tags st l) ++ [make_tag h message info])
          ∧ Part000.tag st error message info h = Returns error st'
      | _ => st' = st ∧ Part000.tag st error message info h = Throws TypeError
      end.
Proof.
  destruct error as [| |l]; eexists; (split; [reflexivity|]); try done.
  split; [apply read_tags_set_tags | reflexivity].
Qed.

(** ** src/unnamed/part_001 against src/dist/index.js *)

Lemma append_tags_some (tags : list Tag) (s : string) :
  fold_left (fun stack t => Part001.append_to stack (nl +:+ tag_stack t)) tags (Some s)
  = Some (s +:+ on_new_lines (map tag_stack tags)).
Proof.
  revert s. induction tags as [|t tags IH]; intros s; simpl.
  - by rewrite string_app_nil_r.
  - unfold Part001.append_to at 2. simpl. rewrite IH. by rewrite !string_app_assoc.
Qed.

Lemma append_tags_none (tags : list Tag) :
  fold_left (fun stack t => Part001.append_to stack (nl +:+ tag_stack t)) tags None
  = match tags with
    | [] => None
    | _ => Some ("undefined" +:+ on_new_lines (map tag_stack tags))
    end.
Proof.
  destruct tags as [|t tags]; [done|]. simpl.
  unfold Part001.append_to at 2. simpl. rewrite append_tags_some.
  by rewrite !string_app_assoc.
Qed.

(** X18.  Where every error on the cause chain has a non-empty stack,
    [src/unnamed/part_001]'s [getFullStack] returns the string that
    [src/dist/index.js]'s returns. *)
Theorem part_001_full_stack_agrees (fuel : nat) (st : Store) (e : ErrRef) :
  stacks_present st e →
  Part001.getFullStack fuel st e = Some <$> Dist.getFullStack fuel st e.
Proof.
  revert e. induction fuel as [|fuel IH]; intros e P;
    (inversion P as [e' F | l s Hs Ns Pc]; subst;
     [destruct e as [| |l]; [done | done | discriminate]|]); simpl; rewrite Hs;
    simpl stack_or_placeholder; destruct (String.eqb_spec s ""); try done.
  - assert (B : match read_tags st l with
                | Some tags =>
                    fold_left (fun stack t => Part001.append_to stack (nl +:+ tag_stack t))
                      tags (Some s)
                | None => Some s
                end
                = Some (match read_tags st l with
                        | Some ((_ :: _) as tags) => s +:+ nl +:+ join_tag_stacks tags
                        | _ => s
                        end)).
    { rewrite stack_with_tags. destruct (read_tags st l) as [tags|]; simpl.
      - apply append_tags_some.
      - by rewrite string_app_nil_r. }
    rewrite B. by destruct (ref_truthy _).
  - assert (B : match read_tags st l with
                | Some tags =>
                    fold_left (fun stack t => Part001.append_to stack (nl +:+ tag_stack t))
                      tags (Some s)
                | None => Some s
                end
                = Some (match read_tags st l with
                        | Some ((_ :: _) as tags) => s +:+ nl +:+ join_tag_stacks tags
                        | _ => s
                        end)).
    { rewrite stack_with_tags. destruct (read_tags st l) as [tags|]; simpl.
      - apply append_tags_some.
      - by rewrite string_app_nil_r. }
    rewrite B. destruct (ref_truthy _); [|done].
    rewrite (IH _ Pc).
    destruct (Dist.getFullStack fuel st (read_cause st l)) as [cs|]; [|done]. simpl.
    by destruct (String.eqb cs "").
Qed.

Lemma part_001_full_stack_agrees_witness :
  Part001.getFullStack 1 two_tags_one_cause_store.2 (EObj two_tags_one_cause_store.1)
  = Some <$> Dist.getFullStack 1 two_tags_one_cause_store.2
               (EObj two_tags_one_cause_store.1).
Proof.
  apply part_001_full_stack_agrees.
  eapply stacks_present_step; [reflexivity | discriminate |].
  eapply stacks_present_step; [reflexivity | discriminate |].
  apply stacks_present_end. reflexivity.
Defined.

Lemma part_001_getFullStack_no_cause fuel st l :
  ref_truthy (read_cause st l) = false →
  Part001.getFullStack fuel st (EObj l)
  = Some (match read_tags st l with
          | Some tags =>
              fold_left (fun stack t => Part001.append_to stack (nl +:+ tag_stack t))
                tags (err_stack (readErr st l))
          | None => err_stack (readErr st l)
          end).
Proof. intros H. destruct fuel; simpl; by rewrite H. Qed.

(** X20.  [src/unnamed/part_001] has no placeholder.  For an error
    without a [stack] property and without a cause, [getFullStack]
    returns [undefined] when the error has no tags, and otherwise a text
    that starts with ["undefined"]; and an untagged cause without a
    stack is left out of the full stack of its effect, where
    [src/dist/index.js] shows ["(no stack)"] for it. *)
Theorem part_001_missing_stack (st : Store) (l : loc) (fuel : nat) :
  err_stack (readErr st l) = None →
  ref_truthy (read_cause st l) = false →
  Part001.getFullStack fuel st (EObj l)
  = Some (match default [] (read_tags st l) with
          | [] => None
          | tags => Some ("undefined" +:+ on_new_lines (map tag_stack tags))
          end)
  ∧ (default [] (read_tags st l) = [] →
     ∀ outer, read_cause st outer = EObj l →
       Part001.getFullStack (S fuel) st (EObj outer)
       = Some (match read_tags st outer with
               | Some tags =>
                   fold_left (fun stack t => Part001.append_to stack (nl +:+ tag_stack t))
                     tags (err_stack (readErr st outer))
               | None => err_stack (readErr st outer)
               end)
       ∧ Dist.getFullStack (S fuel) st (EObj outer)
         = Some (own_stack_lines st outer
                 +:+ nl +:+ "caused by:" +:+ nl +:+ "    (no stack)")).
Proof.
  intros Hs Hc.
  assert (R : Part001.getFullStack fuel st (EObj l)
    = Some (match default [] (read_tags st l) with
            | [] => None
            | tags => Some ("undefined" +:+ on_new_lines (map tag_stack tags))
            end)).
  { rewrite part_001_getFullStack_no_cause, Hs by done.
    destruct (read_tags st l) as [tags|]; [|done].
    rewrite append_tags_none. by destruct tags. }
  split; [exact R|].
  intros He outer Ho. split.
  - simpl. rewrite Ho. simpl. rewrite R, He. reflexivity.
  - rewrite (getFullStack_cause fuel st outer l "(no stack)" Ho).
    + unfold own_stack_lines. by rewrite !string_app_assoc.
    + rewrite getFullStack_no_cause by done. rewrite Hs, He. reflexivity.
Qed.

Lemma part_001_missing_stack_witness :
  Part001.getFullStack 0 emptyStore (EObj 0) = Some None.
Proof.
  destruct (part_001_missing_stack emptyStore 0 0) as [R _];
    [reflexivity | reflexivity | exact R].
Defined.

(** X9.  The cap bounds the array whatever the number of calls: a
    never-tagged error tagged any number of times under one [maxTags]
    has at most [maxTags + 1] entries (3 when [maxTags] is 1). *)
Theorem tag_array_bounded (maxTags : positive) (calls : list TagCall)
    (st : Store) (l : loc) :
  read_tags st l = None →
  ∃ st', tag_calls maxTags st (EObj l) calls = Returns (EObj l) st'
    ∧ length (default [] (read_tags st' l)) ≤ S (Nat.max (Pos.to_nat maxTags) 2).
Proof.
  intros Hnone.
  destruct (tag_calls_spec maxTags calls st l) as (st' & R & T & _).
  exists st'. split; [exact R|].
  rewrite T, Hnone. simpl default.
  rewrite (fold_tag_array_capped _ _ (call_tags_not_dropped calls)).
  destruct (decide (length calls ≤ Pos.to_nat maxTags)) as [Hle|Hgt].
  - unfold capped. rewrite length_map. destruct (decide _); [|done].
    rewrite length_map. lia.
  - rewrite capped_length by (rewrite length_map; lia). lia.
Qed.

Lemma tag_array_bounded_witness :
  ∃ st', tag_calls Dist.default_maxTags fresh_error_store (EObj 0) (numbered_calls 150)
         = Returns (EObj 0) st'
    ∧ length (default [] (read_tags st' 0)) ≤ 101.
Proof.
  apply (tag_array_bounded Dist.default_maxTags (numbered_calls 150) fresh_error_store 0).
  reflexivity.
Defined.

(** [src/unnamed/part_001]'s [tag] is [src/unnamed/part_000]'s on a host
    without [Error.captureStackTrace], given the trace the host leaves. *)
Lemma part_001_tag_as_part_000 (st : Store) (error : ErrRef) (message : option string)
    (info : JsVal) (h : HostTrace) :
  Part001.tag st error message info h
  = Part000.tag st error (from_option JStr JUndefined message) info
      (NoCaptureStackTrace (Part001.host_trace h)).
Proof.
  destruct error as [| |l]; try reflexivity.
  unfold Part001.tag, Part000.tag, Part000._tag, make_tag, js_or.
  destruct message as [m|]; simpl; [|reflexivity].
  by destruct (String.eqb_spec m ""); subst.
Qed.
